(** * UGI rankings: Elo update, persistence adapter and tournament bookkeeping

    Shallow embedding of [src/database.ts] (the persistence adapter), of the
    configuration loading, match-set scoring and match-set rating update of
    [src/index.ts], and of the rating helper [calculateEloChange] of
    [tests/elo-rating.test.ts].

    Modelling conventions.
    - JavaScript numbers are real numbers: [Math.pow] is the real power
      function and [Math.round] is [floor (x + 1/2)] (halves go up).
      Floating-point rounding of intermediate results is not modelled in
      [Elo], [Database] and [Index]; the modules [Double] and [EloDouble]
      give the Elo arithmetic operation by operation on IEEE 754 doubles,
      for the statements that depend on the rounding.  A division by zero,
      whose JavaScript value is [NaN] or an infinity, is made explicit where
      the code can reach it.
    - PostgreSQL is an in-memory state: the [engines] and [games] tables are
      lists of rows in insertion order, each [SERIAL] column has a sequence.
      The database is taken as initialised by [initializeDatabase]; the
      [created_at] / [played_at] timestamps and the length limits of the
      [VARCHAR] columns are left out.
    - An [async] function is a state transformer that either returns a value
      or throws a JavaScript error; [await] is sequencing. *)

From Stdlib Require Import Reals Lra Lia ZArith Ascii.
From stdpp Require Import gmap strings pretty list sorting.

(** ** JavaScript values and exceptions *)

Module JS.

(** A thrown [Error]: the constructor name and the message. *)
Record Error := mkError { error_name : string; error_message : string }.

(** [new Error(message)] *)
Definition new_Error (message : string) : Error := mkError "Error" message.

(** The text of [`${error}`]. *)
Definition Error_toString (e : Error) : string :=
  error_name e +:+ ": " +:+ error_message e.

(** [Math.round(x)]: the nearest integer, halves rounded up. *)
Definition round (x : R) : Z := Zfloor (x + 1 / 2)%R.

(** [Math.pow(b, x)] for a positive base [b]. *)
Definition pow (b x : R) : R := Rpower b x.

(** [`${n}`] for an integer number [n]. *)
Definition Number_toString (n : Z) : string := pretty n.

End JS.

(** ** Computations with a state that may throw *)

Definition M (S A : Type) : Type := S → (JS.Error + A) * S.

#[global] Instance M_ret {S} : MRet (M S) := λ A a s, (inr a, s).

#[global] Instance M_bind {S} : MBind (M S) := λ A B k m s,
  match m s with
  | (inl e, s') => (inl e, s')
  | (inr a, s') => k a s'
  end.

(** [throw e] *)
Definition throw {S A} (e : JS.Error) : M S A := λ s, (inl e, s).

(** [try { m } catch (error) { handler error }]: what [m] did to the state
    before it threw stays done. *)
Definition try_catch {S A} (m : M S A) (handler : JS.Error → M S A) : M S A :=
  λ s, match m s with
       | (inl e, s') => handler e s'
       | (inr a, s') => (inr a, s')
       end.

(** [for (const x of xs) { await body(x); }] *)
Fixpoint for_of {S A} (xs : list A) (body : A → M S unit) : M S unit :=
  match xs with
  | [] => mret tt
  | x :: xs' => body x ;; for_of xs' body
  end.

(** ** The rating helper of [tests/elo-rating.test.ts] *)

Module Elo.

Local Open Scope R_scope.

(** The default of the parameter [k]; also the constant [K] of
    [updateRatings] and [recordMatchSetResult]. *)
Definition K : R := 32.

(** [calculateEloChange(ratingA, ratingB, scoreA, k = 32)], returning
    [[newRatingA, newRatingB]]. *)
Definition calculateEloChange (ratingA ratingB scoreA k : R) : Z * Z :=
  let expectedA := 1 / (1 + JS.pow 10 ((ratingB - ratingA) / 400)) in
  let expectedB := 1 / (1 + JS.pow 10 ((ratingA - ratingB) / 400)) in
  let scoreB := 1 - scoreA in
  let newRatingA := JS.round (ratingA + k * (scoreA - expectedA)) in
  let newRatingB := JS.round (ratingB + k * (scoreB - expectedB)) in
  (newRatingA, newRatingB).

(** The rating deltas [newRating - rating] of a call with integer ratings
    and the default [k]. *)
Definition calculateEloChange_deltas (R1 R2 : Z) (A1 : R) : Z * Z :=
  let '(newRatingA, newRatingB) := calculateEloChange (IZR R1) (IZR R2) A1 K in
  ((newRatingA - R1)%Z, (newRatingB - R2)%Z).

(** The arithmetic of [recordMatchSetResult] between reading the two
    ratings and writing them back: [[ratingChange1, ratingChange2]] from the
    ratings and the two actual scores. *)
Definition ratingChanges (engine1Rating engine2Rating : Z)
    (actualScore1 actualScore2 : R) : Z * Z :=
  let expectedScore1 :=
    1 / (1 + JS.pow 10 ((IZR engine2Rating - IZR engine1Rating) / 400)) in
  let expectedScore2 := 1 - expectedScore1 in
  let ratingChange1 := JS.round (K * (actualScore1 - expectedScore1)) in
  let ratingChange2 := JS.round (K * (actualScore2 - expectedScore2)) in
  (ratingChange1, ratingChange2).

End Elo.

(** ** [src/database.ts]: the persistence adapter *)

Module Database.

(** *** Tables *)

(** A row of [engines]. *)
Record EngineRow := mkEngineRow {
  e_id : Z;                        (* id SERIAL PRIMARY KEY *)
  e_name : string;                 (* name VARCHAR(255) UNIQUE NOT NULL *)
  e_description : option string;   (* description TEXT *)
  e_rating : Z;                    (* rating INTEGER DEFAULT 1500 *)
  e_games_played : Z;              (* games_played INTEGER DEFAULT 0 *)
  e_wins : Z;                      (* wins INTEGER DEFAULT 0 *)
  e_losses : Z;                    (* losses INTEGER DEFAULT 0 *)
  e_draws : Z                      (* draws INTEGER DEFAULT 0 *)
}.

(** The column defaults of [CREATE TABLE engines]. *)
Definition rating_DEFAULT : Z := 1500.
Definition games_played_DEFAULT : Z := 0.
Definition wins_DEFAULT : Z := 0.
Definition losses_DEFAULT : Z := 0.
Definition draws_DEFAULT : Z := 0.

Inductive Color := white | black.

(** A row of [games]; [None] is SQL [NULL].  The columns
    [engine1_rating_after] and [engine2_rating_after] are never written by
    the code and stay [NULL]; [g_moves] holds the move list whose JSON text
    the column stores. *)
Record GameRow := mkGameRow {
  g_id : Z;
  g_engine1_id : Z;
  g_engine2_id : Z;
  g_winner_id : option Z;
  g_is_draw : bool;
  g_engine1_rating_before : Z;
  g_engine2_rating_before : Z;
  g_moves : option (list string);
  g_duration : option Z;
  g_error_message : option string;
  g_final_status : option string;
  g_starting_position : option string;
  g_match_set_name : option string;
  g_engine1_color : option Color;
  g_engine2_color : option Color
}.

Record Db := mkDb {
  engines : list EngineRow;
  engines_id_seq : Z;
  games : list GameRow;
  games_id_seq : Z
}.

(** The database right after [initializeDatabase] on a fresh server. *)
Definition empty_db : Db := mkDb [] 0 [] 0.

Definition set_engines (es : list EngineRow) (db : Db) : Db :=
  mkDb es (engines_id_seq db) (games db) (games_id_seq db).

(** [UPDATE engines SET ... WHERE cond]: rewrite the rows that satisfy
    [cond], keep the others, keep the order. *)
Definition UPDATE_engines (cond : EngineRow → bool) (set : EngineRow → EngineRow)
    : M Db unit :=
  λ db, (inr tt,
         set_engines ((λ e, if cond e then set e else e) <$> engines db) db).

(** The error PostgreSQL raises when an insert breaks [UNIQUE (name)]. *)
Definition unique_violation : JS.Error :=
  JS.mkError "error" "duplicate key value violates unique constraint".

(** ['INSERT INTO engines (name, rating, description) VALUES ($1, $2, $3)
    RETURNING id'].  The id comes from the sequence, which a rejected insert
    does not give back; the other columns take their defaults. *)
Definition INSERT_engine (name : string) (rating : Z)
    (description : option string) : M Db Z :=
  λ db,
    let id := (engines_id_seq db + 1)%Z in
    if bool_decide (name ∈ e_name <$> engines db) then
      (inl unique_violation,
       mkDb (engines db) id (games db) (games_id_seq db))
    else
      (inr id,
       mkDb (engines db ++
               [mkEngineRow id name description rating games_played_DEFAULT
                  wins_DEFAULT losses_DEFAULT draws_DEFAULT])
            id (games db) (games_id_seq db)).

(** ['SELECT rating FROM engines WHERE id = $1']: the [rating] of each
    matching row. *)
Definition SELECT_rating (id : Z) : M Db (list Z) :=
  λ db, (inr (e_rating <$> filter (λ e, e_id e = id) (engines db)), db).

(** ['INSERT INTO games (...) VALUES ($1, ..., $14)']; the row comes without
    its id, which the sequence supplies. *)
Definition INSERT_game (row : Z → GameRow) : M Db unit :=
  λ db,
    let id := (games_id_seq db + 1)%Z in
    (inr tt, mkDb (engines db) (engines_id_seq db) (games db ++ [row id]) id).

(** *** [addEngine] *)

(** [addEngine(pool, name, rating = 1500, description?)]; [None] is an
    omitted ([undefined]) argument, and an [undefined] query parameter is
    sent as [NULL]. *)
Definition addEngine (name : string) (rating : option Z)
    (description : option string) : M Db Z :=
  let rating := default 1500%Z rating in
  INSERT_engine name rating description.

(** *** [updateRatings] *)

(** [rows[0].rating]; reading [rating] of [undefined] is a [TypeError]. *)
Definition first_rating {S} (rows : list Z) : M S Z :=
  match rows with
  | rating :: _ => mret rating
  | [] => throw (JS.mkError "TypeError"
                   "Cannot read properties of undefined (reading 'rating')")
  end.

Definition set_rating_played (newRating : Z) (e : EngineRow) : EngineRow :=
  mkEngineRow (e_id e) (e_name e) (e_description e) newRating
    (e_games_played e + 1) (e_wins e) (e_losses e) (e_draws e).

Definition incr_draws (e : EngineRow) : EngineRow :=
  mkEngineRow (e_id e) (e_name e) (e_description e) (e_rating e)
    (e_games_played e) (e_wins e) (e_losses e) (e_draws e + 1).

Definition incr_wins (e : EngineRow) : EngineRow :=
  mkEngineRow (e_id e) (e_name e) (e_description e) (e_rating e)
    (e_games_played e) (e_wins e + 1) (e_losses e) (e_draws e).

Definition incr_losses (e : EngineRow) : EngineRow :=
  mkEngineRow (e_id e) (e_name e) (e_description e) (e_rating e)
    (e_games_played e) (e_wins e) (e_losses e + 1) (e_draws e).

(** [updateRatings(pool, engine1Id, engine2Id, isDraw = false)] *)
Definition updateRatings (engine1Id engine2Id : Z) (isDraw : bool) : M Db unit :=
  let K := 32%R in
  engine1 ← SELECT_rating engine1Id;
  engine2 ← SELECT_rating engine2Id;
  rating1 ← first_rating engine1;
  rating2 ← first_rating engine2;
  let expected1 := (1 / (1 + JS.pow 10 ((IZR rating2 - IZR rating1) / 400)))%R in
  let expected2 := (1 / (1 + JS.pow 10 ((IZR rating1 - IZR rating2) / 400)))%R in
  let score1 := (if isDraw then 0.5 else 1)%R in
  let score2 := (if isDraw then 0.5 else 0)%R in
  let newRating1 := JS.round (IZR rating1 + K * (score1 - expected1))%R in
  let newRating2 := JS.round (IZR rating2 + K * (score2 - expected2))%R in
  UPDATE_engines (λ e, bool_decide (e_id e = engine1Id))
    (set_rating_played newRating1) ;;
  UPDATE_engines (λ e, bool_decide (e_id e = engine2Id))
    (set_rating_played newRating2) ;;
  if isDraw then
    UPDATE_engines
      (λ e, bool_decide (e_id e = engine1Id) || bool_decide (e_id e = engine2Id))
      incr_draws
  else
    UPDATE_engines (λ e, bool_decide (e_id e = engine1Id)) incr_wins ;;
    UPDATE_engines (λ e, bool_decide (e_id e = engine2Id)) incr_losses.

(** *** [getRankings] *)

(** A row of the result of [getRankings]; [r_description] is [None] when the
    column is not selected, and [Some d] holds the (nullable) column. *)
Record RankingRow := mkRankingRow {
  r_name : string;
  r_rating : Z;
  r_games_played : Z;
  r_wins : Z;
  r_losses : Z;
  r_draws : Z;
  r_description : option (option string)
}.

(** [ORDER BY rating DESC]: a row may come before another when its rating is
    not smaller. *)
Definition rating_DESC (e1 e2 : EngineRow) : Prop := (e_rating e2 ≤ e_rating e1)%Z.

#[global] Instance rating_DESC_dec e1 e2 : Decision (rating_DESC e1 e2).
Proof. unfold rating_DESC. apply _. Defined.

(** [SELECT ${fields} FROM engines] for one row. *)
Definition select_fields (detailed : bool) (e : EngineRow) : RankingRow :=
  mkRankingRow (e_name e) (e_rating e) (e_games_played e) (e_wins e)
    (e_losses e) (e_draws e)
    (if detailed then Some (e_description e) else None).

(** [getRankings(pool, limit = 10, detailed = false)]:
    [`SELECT ${fields} FROM engines ORDER BY rating DESC LIMIT $1`], with
    [limit] a row count and [None] the omitted argument.  The order among
    equal ratings, which SQL leaves open, is the one of a merge sort of the
    table. *)
Definition getRankings (limit : option nat) (detailed : bool)
    : M Db (list RankingRow) :=
  let limit := default 10 limit in
  λ db,
    (inr (select_fields detailed <$>
            take limit (merge_sort rating_DESC (engines db))), db).

(** *** [recordGameResult] *)

Inductive Result := win | loss | draw | error.

#[global] Instance Result_eq_dec : EqDecision Result.
Proof. solve_decision. Defined.

(** The [gameResult] argument; an absent optional field is [None].  The
    field [error] of the source is [errorText] here. *)
Record GameResult := mkGameResult {
  engine1Id : Z;
  engine2Id : Z;
  result : Result;
  moves : option (list string);
  duration : option Z;
  errorText : option string;
  finalStatus : option string;
  startingPosition : option string;
  matchSetName : option string;
  engine1Color : option Color;
  engine2Color : option Color
}.

(** [recordGameResult(pool, gameResult, shouldUpdateRatings = true)] *)
Definition recordGameResult (gameResult : GameResult)
    (shouldUpdateRatings : bool) : M Db unit :=
  let isDraw := bool_decide (result gameResult = draw) in
  let winnerId :=
    if isDraw then None
    else Some (if bool_decide (result gameResult = win)
               then engine1Id gameResult else engine2Id gameResult) in
  engine1 ← SELECT_rating (engine1Id gameResult);
  engine2 ← SELECT_rating (engine2Id gameResult);
  if bool_decide (length engine1 = 0) || bool_decide (length engine2 = 0) then
    throw (JS.new_Error "One or both engines not found")
  else
    rating1Before ← first_rating engine1;
    rating2Before ← first_rating engine2;
    INSERT_game (λ id,
      mkGameRow id (engine1Id gameResult) (engine2Id gameResult) winnerId
        isDraw rating1Before rating2Before (moves gameResult)
        (duration gameResult) (errorText gameResult) (finalStatus gameResult)
        (startingPosition gameResult) (matchSetName gameResult)
        (engine1Color gameResult) (engine2Color gameResult)) ;;
    if shouldUpdateRatings && negb (bool_decide (result gameResult = error)) then
      updateRatings (engine1Id gameResult) (engine2Id gameResult) isDraw
    else mret tt.

(** *** [getPairGameCounts] *)

(** A row of [SELECT engine1_id, engine2_id, COUNT( * ) as game_count ...];
    [game_count] is the number that [parseInt] reads from the decimal text
    the driver returns. *)
Record PairCountRow := mkPairCountRow {
  p_engine1_id : Z;
  p_engine2_id : Z;
  game_count : Z
}.

(** One more game of the ordered pair [(i, j)] in the groups collected so
    far. *)
Fixpoint add_to_group (i j : Z) (groups : list PairCountRow) : list PairCountRow :=
  match groups with
  | [] => [mkPairCountRow i j 1]
  | row :: groups' =>
      if bool_decide (p_engine1_id row = i ∧ p_engine2_id row = j)
      then mkPairCountRow i j (game_count row + 1) :: groups'
      else row :: add_to_group i j groups'
  end.

(** [SELECT engine1_id, engine2_id, COUNT( * ) as game_count FROM games
    GROUP BY engine1_id, engine2_id]: one row per ordered pair, here in the
    order in which the pairs first occur in the table. *)
Definition SELECT_pair_counts : M Db (list PairCountRow) :=
  λ db,
    (inr (foldl (λ groups g, add_to_group (g_engine1_id g) (g_engine2_id g) groups)
            [] (games db)), db).

(** [`${a}-${b}`] *)
Definition pair_key (a b : Z) : string :=
  JS.Number_toString a +:+ "-" +:+ JS.Number_toString b.

(** The body of [result.rows.forEach]: both keys of the row are set. *)
Definition set_pair (pairCounts : gmap string Z) (row : PairCountRow)
    : gmap string Z :=
  <[pair_key (p_engine2_id row) (p_engine1_id row) := game_count row]>
    (<[pair_key (p_engine1_id row) (p_engine2_id row) := game_count row]>
       pairCounts).

(** The [Map] built from the rows of the query. *)
Definition pairCounts_of_rows (rows : list PairCountRow) : gmap string Z :=
  foldl set_pair ∅ rows.

(** [getPairGameCounts(pool)] *)
Definition getPairGameCounts : M Db (gmap string Z) :=
  rows ← SELECT_pair_counts;
  mret (pairCounts_of_rows rows).

End Database.

(** ** [src/index.ts]: configuration, match sets and their rating update *)

Module Index.

Import Database.

(** *** Configuration types *)

Inductive OptionValue :=
  | OptString (s : string)
  | OptNumber (n : Z)
  | OptBoolean (b : bool).

(** [interface EngineConfig] *)
Record EngineConfig := mkEngineConfig {
  ec_name : string;
  ec_executable : string;
  ec_workingDirectory : string;
  ec_arguments : list string;
  ec_initialRating : Z;
  ec_description : option string;
  ec_enabled : option bool;
  ec_options : option (list (string * OptionValue));
  ec_env : option (list (string * string))
}.

(** [interface StartingPosition] *)
Record StartingPosition := mkStartingPosition {
  sp_name : string;
  sp_description : option string;
  sp_moves : list string;
  sp_fen : option string
}.

(** [interface MatchSet] *)
Record MatchSet := mkMatchSet {
  m_name : string;
  m_description : option string;
  m_startingPositions : list StartingPosition;
  m_gamesPerPosition : Z
}.

(** The [tournament] object of [interface TournamentConfig]. *)
Record Tournament := mkTournament {
  t_name : string;
  t_description : option string;
  t_timeControl : option string;
  t_matchSets : option (list MatchSet);
  t_defaultMatchSet : option string
}.

(** [interface TournamentConfig]; [c_engines] is [None] when the parsed
    document has no [engines] array. *)
Record TournamentConfig := mkTournamentConfig {
  c_tournament : Tournament;
  c_engines : option (list EngineConfig)
}.

(** *** The Node.js process: file system, environment, console *)

(** What the program reads from its surroundings: [path.resolve],
    [JSON.parse] at type [TournamentConfig], the files by resolved path, and
    [process.env.ENGINES_CONFIG].  The [fs] functions resolve the path they
    are given, also when the caller has resolved it already. *)
Record Node := mkNode {
  path_resolve : string → string;
  JSON_parse : string → JS.Error + TournamentConfig;
  files : gmap string string;
  ENGINES_CONFIG : option string
}.

(** [fs.existsSync(path)] *)
Definition existsSync (node : Node) (path : string) : bool :=
  bool_decide (is_Some (files node !! path_resolve node path)).

(** [process.env.ENGINES_CONFIG || './engines.json'] *)
Definition DEFAULT_CONFIG_FILE (node : Node) : string :=
  match ENGINES_CONFIG node with
  | Some file => if bool_decide (file = "") then "./engines.json" else file
  | None => "./engines.json"
  end.

Inductive Level := Log | Warn | Err.

(** The program state: the database behind [pool] and the lines written to
    the console. *)
Record App := mkApp {
  db : Db;
  console : list (Level * string)
}.

(** A query through [pool] (or [client]) on the program state. *)
Definition pool {A} (query : M Db A) : M App A :=
  λ app,
    let '(r, db') := query (db app) in (r, mkApp db' (console app)).

Definition console_write (level : Level) (line : string) : M App unit :=
  λ app, (inr tt, mkApp (db app) (console app ++ [(level, line)])).

Definition console_log : string → M App unit := console_write Log.
Definition console_warn : string → M App unit := console_write Warn.
Definition console_error : string → M App unit := console_write Err.

(** [fs.readFileSync(path, 'utf8')] *)
Definition readFileSync {S} (node : Node) (path : string) : M S string :=
  match files node !! path_resolve node path with
  | Some data => mret data
  | None => throw (JS.mkError "Error"
                     ("ENOENT: no such file or directory, open '" +:+ path +:+ "'"))
  end.

(** [JSON.parse(configData)] *)
Definition parse_config {S} (node : Node) (configData : string)
    : M S TournamentConfig :=
  match JSON_parse node configData with
  | inl e => throw e
  | inr config => mret config
  end.

(** *** [getEngineWithConfig] *)

(** The object [getEngineWithConfig] returns: the database row spread,
    then the fields taken from the configuration. *)
Record EngineWithConfig := mkEngineWithConfig {
  w_row : EngineRow;
  w_executable : string;
  w_workingDirectory : string;
  w_arguments : list string;
  w_options : list (string * OptionValue);
  w_env : list (string * string);
  w_enabled : option bool;
  w_working_directory : string
}.

(** [getEngineWithConfig(engineDbRow)] *)
Definition getEngineWithConfig (node : Node) (engineDbRow : EngineRow)
    : M App EngineWithConfig :=
  try_catch
    (let configFile := path_resolve node (DEFAULT_CONFIG_FILE node) in
     if negb (existsSync node configFile) then
       throw (JS.new_Error ("Configuration file not found: " +:+ configFile))
     else
       configData ← readFileSync node configFile;
       config ← parse_config node configData;
       match c_engines config with
       | None =>
           throw (JS.mkError "TypeError"
                    "Cannot read properties of undefined (reading 'find')")
       | Some engines =>
           match List.find (λ e, bool_decide (ec_name e = e_name engineDbRow))
                   engines with
           | None =>
               throw (JS.new_Error ("Engine configuration not found for: "
                                    +:+ e_name engineDbRow))
           | Some engineConfig =>
               mret (mkEngineWithConfig engineDbRow
                       (ec_executable engineConfig)
                       (ec_workingDirectory engineConfig)
                       (ec_arguments engineConfig)
                       (default [] (ec_options engineConfig))
                       (default [] (ec_env engineConfig))
                       (ec_enabled engineConfig)
                       (ec_workingDirectory engineConfig))
           end
       end)
    (λ error,
       console_error ("❌ Failed to load configuration for engine "
                      +:+ e_name engineDbRow +:+ ": " +:+ JS.Error_toString error) ;;
       throw error).

(** *** [loadEnginesFromConfig] and [autoLoadEngines] *)

(** ['SELECT id FROM engines WHERE name = $1'] *)
Definition SELECT_id_by_name (name : string) : M Db (list Z) :=
  λ db, (inr (e_id <$> filter (λ e, e_name e = name) (engines db)), db).

(** ['UPDATE engines SET description = $1, rating = $2 WHERE name = $3'] *)
Definition UPDATE_description_rating (description : option string)
    (rating : Z) (name : string) : M Db unit :=
  UPDATE_engines (λ e, bool_decide (e_name e = name))
    (λ e, mkEngineRow (e_id e) (e_name e) description rating
            (e_games_played e) (e_wins e) (e_losses e) (e_draws e)).

(** ['SELECT COUNT( * ) as count FROM engines'] *)
Definition SELECT_count_engines : M Db Z :=
  λ db, (inr (Z.of_nat (length (engines db))), db).

(** The body of the loop over [config.engines], with the counters
    [(loaded, skipped)] it updates. *)
Definition load_engine (replace : bool) (engineConfig : EngineConfig)
    (counters : Z * Z) : M App (Z * Z) :=
  let '(loaded, skipped) := counters in
  try_catch
    (existing ← pool (SELECT_id_by_name (ec_name engineConfig));
     if bool_decide (0 < length existing) then
       if replace then
         pool (UPDATE_description_rating (ec_description engineConfig)
                 (ec_initialRating engineConfig) (ec_name engineConfig)) ;;
         console_log ("🔄 Updated engine: " +:+ ec_name engineConfig) ;;
         mret ((loaded + 1)%Z, skipped)
       else
         console_log ("⚠️  Engine already exists: " +:+ ec_name engineConfig
                      +:+ " (use --replace to update)") ;;
         mret (loaded, (skipped + 1)%Z)
     else
       pool (addEngine (ec_name engineConfig)
               (Some (ec_initialRating engineConfig))
               (ec_description engineConfig)) ;;
       console_log ("➕ Added engine: " +:+ ec_name engineConfig +:+ " ("
                    +:+ JS.Number_toString (ec_initialRating engineConfig)
                    +:+ " rating)") ;;
       mret ((loaded + 1)%Z, skipped))
    (λ error,
       console_error ("❌ Failed to process engine " +:+ ec_name engineConfig
                      +:+ ": " +:+ JS.Error_toString error) ;;
       throw error).

Fixpoint load_engines (replace : bool) (engines : list EngineConfig)
    (counters : Z * Z) : M App (Z * Z) :=
  match engines with
  | [] => mret counters
  | engineConfig :: engines' =>
      counters' ← load_engine replace engineConfig counters;
      load_engines replace engines' counters'
  end.

(** [loadEnginesFromConfig(configPath, replace = false)], returning
    [{ loaded, skipped }]. *)
Definition loadEnginesFromConfig (node : Node) (configPath : string)
    (replace : bool) : M App (Z * Z) :=
  let configFile := path_resolve node configPath in
  if negb (existsSync node configFile) then
    throw (JS.new_Error ("Configuration file not found: " +:+ configFile))
  else
    configData ← readFileSync node configFile;
    config ← parse_config node configData;
    match c_engines config with
    | None => throw (JS.new_Error "Invalid configuration: engines array not found")
    | Some engines =>
        console_log ("📋 Tournament: " +:+ t_name (c_tournament config)) ;;
        match t_description (c_tournament config) with
        | Some description =>
            if bool_decide (description = "") then mret tt
            else console_log ("📝 Description: " +:+ description)
        | None => mret tt
        end ;;
        load_engines replace engines (0%Z, 0%Z)
    end.

(** [autoLoadEngines()] *)
Definition autoLoadEngines (node : Node) : M App unit :=
  if negb (existsSync node (DEFAULT_CONFIG_FILE node)) then
    console_log ("ℹ️  No config file found at " +:+ DEFAULT_CONFIG_FILE node) ;;
    console_log
      "ℹ️  Create an engines.json file or use load-config command to add engines"
  else
    try_catch
      (console_log ("🔄 Auto-loading engines from " +:+ DEFAULT_CONFIG_FILE node
                    +:+ "...") ;;
       result ← loadEnginesFromConfig node (DEFAULT_CONFIG_FILE node) false;
       let '(loaded, skipped) := result in
       (if bool_decide (0 < loaded)%Z then
          console_log ("✅ Auto-loaded " +:+ JS.Number_toString loaded
                       +:+ " new engines")
        else mret tt) ;;
       (if bool_decide (0 < skipped)%Z then
          console_log ("ℹ️  " +:+ JS.Number_toString skipped
                       +:+ " engines already exist")
        else mret tt) ;;
       totalEngines ← pool SELECT_count_engines;
       console_log ("🎮 Total engines: " +:+ JS.Number_toString totalEngines))
      (λ error,
         console_warn ("⚠️  Failed to auto-load engines: "
                       +:+ JS.Error_toString error) ;;
         console_log
           "ℹ️  You can manually load engines using the load-config command").

(** The start of [main()], up to the dispatch of the command line. *)
Definition startup (node : Node) : M App unit :=
  console_log "🎮 UGI Rankings System" ;;
  autoLoadEngines node.

(** *** [playMatchSet] *)

(** [interface MatchSetResult] *)
Record MatchSetResult := mkMatchSetResult {
  ms_engine1Id : Z;
  ms_engine2Id : Z;
  ms_matchSetName : string;
  ms_games : list GameResult;
  engine1Score : R;
  engine2Score : R;
  totalGames : Z;
  completed : bool
}.

(** The local variables [games], [engine1Score] and [engine2Score] of
    [playMatchSet]. *)
Record Scoreboard := mkScoreboard {
  sb_games : list GameResult;
  sb_engine1Score : R;
  sb_engine2Score : R
}.

(** [games.push(game)] followed by the update of the scores. *)
Definition score_game (game : GameResult) (sb : Scoreboard) : Scoreboard :=
  let games := sb_games sb ++ [game] in
  match result game with
  | win => mkScoreboard games (sb_engine1Score sb + 1)%R (sb_engine2Score sb)
  | loss => mkScoreboard games (sb_engine1Score sb) (sb_engine2Score sb + 1)%R
  | draw => mkScoreboard games (sb_engine1Score sb + 0.5)%R
              (sb_engine2Score sb + 0.5)%R
  | error => mkScoreboard games (sb_engine1Score sb) (sb_engine2Score sb)
  end.

(** [playGame(engine1Id, engine2Id, timeControl, startingPosition,
    matchSetName, engine1Color)] runs two engine processes; it is a
    parameter here. *)
Definition PlayGame : Type :=
  Z → Z → string → StartingPosition → string → Color → M App GameResult.

Definition with_scoreboard {A} (m : M App A) : M (App * Scoreboard) A :=
  λ '(app, sb), let '(r, app') := m app in (r, (app', sb)).

Definition on_scoreboard (f : Scoreboard → Scoreboard) : M (App * Scoreboard) unit :=
  λ '(app, sb), (inr tt, (app, f sb)).

(** The body of the loop over [matchSet.startingPositions]: the position is
    played once with [engine1] as white and once as black. *)
Definition play_position (playGame : PlayGame) (engine1Id engine2Id : Z)
    (timeControl : string) (matchSet : MatchSet)
    (startingPosition : StartingPosition) : M (App * Scoreboard) unit :=
  game1 ← with_scoreboard
    (playGame engine1Id engine2Id timeControl startingPosition
       (m_name matchSet) white);
  on_scoreboard (score_game game1) ;;
  game2 ← with_scoreboard
    (playGame engine1Id engine2Id timeControl startingPosition
       (m_name matchSet) black);
  on_scoreboard (score_game game2).

(** [playMatchSet(engine1Id, engine2Id, timeControl, matchSet)].  When
    [playGame] throws, the [catch] returns what was played so far with
    [completed: false].  The progress lines written to the console and the
    pauses between games are left out. *)
Definition playMatchSet (playGame : PlayGame) (engine1Id engine2Id : Z)
    (timeControl : string) (matchSet : MatchSet) : M App MatchSetResult :=
  λ app,
    let '(r, (app', sb)) :=
      for_of (m_startingPositions matchSet)
        (play_position playGame engine1Id engine2Id timeControl matchSet)
        (app, mkScoreboard [] 0%R 0%R) in
    (inr (mkMatchSetResult engine1Id engine2Id (m_name matchSet) (sb_games sb)
            (sb_engine1Score sb) (sb_engine2Score sb)
            (Z.of_nat (length (sb_games sb)))
            (match r with inr _ => true | inl _ => false end)),
     app').

(** *** [recordMatchSetResult] *)

(** ['UPDATE engines SET rating = $1 WHERE id = $2'] *)
Definition UPDATE_rating (newRating : Z) (id : Z) : M Db unit :=
  UPDATE_engines (λ e, bool_decide (e_id e = id))
    (λ e, mkEngineRow (e_id e) (e_name e) (e_description e) newRating
            (e_games_played e) (e_wins e) (e_losses e) (e_draws e)).

(** [ROLLBACK] on [client]: the only writes made through [client] are the
    two rating updates, so rolling back restores the [engines] table of
    [BEGIN].  The game rows are inserted through [pool], outside the
    transaction, and stay. *)
Definition ROLLBACK (engines_at_BEGIN : list EngineRow) : M App unit :=
  λ app, (inr tt, mkApp (set_engines engines_at_BEGIN (db app)) (console app)).

(** [`${ratingChange >= 0 ? '+' : ''}${ratingChange}`] *)
Definition signed (ratingChange : Z) : string :=
  (if bool_decide (0 ≤ ratingChange)%Z then "+" else "")
  +:+ JS.Number_toString ratingChange.

(** The error PostgreSQL raises when an [INTEGER] parameter is [NaN] or an
    infinity. *)
Definition invalid_integer : JS.Error :=
  JS.mkError "error" "invalid input syntax for type integer".

(** [recordMatchSetResult(pool, matchSetResult)].  With [totalGames] zero
    the two actual scores are [NaN] or infinite, so are the new ratings, and
    the first [UPDATE] is rejected. *)
Definition recordMatchSetResult (matchSetResult : MatchSetResult) : M App unit :=
  λ app,
    let engines_at_BEGIN := engines (db app) in
    try_catch
      (for_of (ms_games matchSetResult)
         (λ game, pool (recordGameResult game false)) ;;
       engine1Query ← pool (SELECT_rating (ms_engine1Id matchSetResult));
       engine2Query ← pool (SELECT_rating (ms_engine2Id matchSetResult));
       if bool_decide (length engine1Query = 0)
          || bool_decide (length engine2Query = 0) then
         throw (JS.new_Error "Engine not found for rating update")
       else
         engine1Rating ← first_rating engine1Query;
         engine2Rating ← first_rating engine2Query;
         if bool_decide (totalGames matchSetResult = 0%Z) then
           throw invalid_integer
         else
           let actualScore1 :=
             (engine1Score matchSetResult / IZR (totalGames matchSetResult))%R in
           let actualScore2 :=
             (engine2Score matchSetResult / IZR (totalGames matchSetResult))%R in
           let '(ratingChange1, ratingChange2) :=
             Elo.ratingChanges engine1Rating engine2Rating
               actualScore1 actualScore2 in
           let newRating1 := (engine1Rating + ratingChange1)%Z in
           let newRating2 := (engine2Rating + ratingChange2)%Z in
           pool (UPDATE_rating newRating1 (ms_engine1Id matchSetResult)) ;;
           pool (UPDATE_rating newRating2 (ms_engine2Id matchSetResult)) ;;
           console_log "📈 Ratings updated:" ;;
           console_log ("   Engine "
                        +:+ JS.Number_toString (ms_engine1Id matchSetResult)
                        +:+ ": " +:+ JS.Number_toString engine1Rating +:+ " → "
                        +:+ JS.Number_toString newRating1
                        +:+ " (" +:+ signed ratingChange1 +:+ ")") ;;
           console_log ("   Engine "
                        +:+ JS.Number_toString (ms_engine2Id matchSetResult)
                        +:+ ": " +:+ JS.Number_toString engine2Rating +:+ " → "
                        +:+ JS.Number_toString newRating2
                        +:+ " (" +:+ signed ratingChange2 +:+ ")"))
      (λ error,
         ROLLBACK engines_at_BEGIN ;;
         console_error ("❌ Failed to record match set result: "
                        +:+ JS.Error_toString error) ;;
         throw error)
      app.

End Index.

(** ** The program as a transition system *)

Module System.

Import Database Index.

(** The calls that write to the database. *)
Inductive Call :=
  | CallAddEngine (name : string) (rating : option Z) (description : option string)
  | CallUpdateRatings (engine1Id engine2Id : Z) (isDraw : bool)
  | CallRecordGameResult (gameResult : GameResult) (shouldUpdateRatings : bool)
  | CallLoadEnginesFromConfig (node : Node) (configPath : string) (replace : bool)
  | CallAutoLoadEngines (node : Node)
  | CallRecordMatchSetResult (matchSetResult : MatchSetResult).

(** The state after a call, whether it returned or threw. *)
Definition run (call : Call) (app : App) : App :=
  match call with
  | CallAddEngine name rating description =>
      (pool (addEngine name rating description) app).2
  | CallUpdateRatings engine1Id engine2Id isDraw =>
      (pool (updateRatings engine1Id engine2Id isDraw) app).2
  | CallRecordGameResult gameResult shouldUpdateRatings =>
      (pool (recordGameResult gameResult shouldUpdateRatings) app).2
  | CallLoadEnginesFromConfig node configPath replace =>
      (loadEnginesFromConfig node configPath replace app).2
  | CallAutoLoadEngines node => (autoLoadEngines node app).2
  | CallRecordMatchSetResult matchSetResult =>
      (recordMatchSetResult matchSetResult app).2
  end.

(** The states the program can be in: it starts on the initialised, empty
    database and makes calls. *)
Inductive reachable : App → Prop :=
  | reachable_init : reachable (mkApp empty_db [])
  | reachable_run call app : reachable app → reachable (run call app).

(** No two rows of [engines] share a name. *)
Definition unique_names (db : Db) : Prop := NoDup (e_name <$> engines db).

(** A computation keeps a property of the state, whether it returns or
    throws. *)
Definition preserves {S A} (I : S → Prop) (m : M S A) : Prop :=
  ∀ s, I s → I (m s).2.

End System.

(** ** The constraints of the schema *)

Module Schema.

Import Database Index.

(** A [SERIAL] column whose values are [ids] when the sequence has last
    given [seq]: the values are pairwise distinct and came from the
    sequence, which starts at 1. *)
Definition serial (ids : list Z) (seq : Z) : Prop :=
  NoDup ids ∧ Forall (λ id, 0 < id ≤ seq)%Z ids ∧ (0 ≤ seq)%Z.

(** [id SERIAL PRIMARY KEY], on [engines] and on [games]. *)
Definition primary_keys (db : Db) : Prop :=
  serial (e_id <$> engines db) (engines_id_seq db)
  ∧ serial (g_id <$> games db) (games_id_seq db).

(** [REFERENCES engines(id)] on the columns [engine1_id], [engine2_id] and
    [winner_id] of a row of [games], given the ids of [engines]. *)
Definition references_engines (ids : list Z) (g : GameRow) : Prop :=
  g_engine1_id g ∈ ids
  ∧ g_engine2_id g ∈ ids
  ∧ ∀ winner, g_winner_id g = Some winner → winner ∈ ids.

Definition foreign_keys (db : Db) : Prop :=
  Forall (references_engines (e_id <$> engines db)) (games db).

(** A row of [games] names a winner unless it is a draw, and the winner is
    one of its two engines. *)
Definition winner_recorded (g : GameRow) : Prop :=
  match g_winner_id g with
  | None => g_is_draw g = true
  | Some winner =>
      g_is_draw g = false
      ∧ (winner = g_engine1_id g ∨ winner = g_engine2_id g)
  end.

(** The columns of [engines] that no statement of the program sets after
    the insert. *)
Definition key (e : EngineRow) : Z * string := (e_id e, e_name e).

(** [db'] has the rows of [db] and possibly more, after them: the engines
    with their id and name, the games as they were. *)
Definition extends (db db' : Db) : Prop :=
  key <$> engines db `prefix_of` key <$> engines db'
  ∧ games db `prefix_of` games db'.


Definition varchar_255 (s : string) : Prop := (String.length s ≤ 255)%nat.


End Schema.

(** ** [src/index.ts]: one game *)

Module Play.

Import Database Index.

(** ['SELECT * FROM engines WHERE id = $1'] *)
Definition SELECT_engine (id : Z) : M Db (list EngineRow) :=
  λ db, (inr (filter (λ e, e_id e = id) (engines db)), db).

(** The text of a [result] in a template literal. *)
Definition Result_toString (r : Result) : string :=
  match r with
  | win => "win"
  | loss => "loss"
  | draw => "draw"
  | Database.error => "error"
  end.

(** [engine1Color === 'white' ? 'black' : 'white'] *)
Definition opposite (engine1Color : Color) : Color :=
  match engine1Color with
  | white => black
  | black => white
  end.

(** [runEngineGame(engine1, engine2, timeControl, startingPosition,
    matchSetName, engine1Color)] starts two engine processes and talks to
    them; it is a parameter here. *)
Definition RunEngineGame : Type :=
  EngineRow → EngineRow → string → option StartingPosition → option string →
  Color → M App GameResult.

(** [...(matchSetName && { matchSetName })]: an empty name is left out. *)
Definition truthy (s : option string) : option string :=
  match s with
  | Some text => if bool_decide (text = "") then None else Some text
  | None => None
  end.

(** [playGame(engine1Id, engine2Id, timeControl, startingPosition?,
    matchSetName?, engine1Color = 'white')] *)
Definition playGame (runEngineGame : RunEngineGame) (engine1Id engine2Id : Z)
    (timeControl : string) (startingPosition : option StartingPosition)
    (matchSetName : option string) (engine1Color : Color) : M App GameResult :=
  engine1Query ← pool (SELECT_engine engine1Id);
  engine2Query ← pool (SELECT_engine engine2Id);
  match engine1Query, engine2Query with
  | engine1 :: _, engine2 :: _ =>
      console_log ("🎯 " +:+ e_name engine1 +:+ " vs " +:+ e_name engine2) ;;
      try_catch
        (game ← runEngineGame engine1 engine2 timeControl startingPosition
                  matchSetName engine1Color;
         console_log ("🏁 Game result: " +:+ Result_toString (result game)) ;;
         mret game)
        (λ e,
           console_error ("❌ Game error: " +:+ JS.Error_toString e) ;;
           mret (mkGameResult engine1Id engine2Id Database.error None None
                   (Some (JS.error_message e)) None
                   (sp_name <$> startingPosition) (truthy matchSetName)
                   (Some engine1Color) (Some (opposite engine1Color))))
  | _, _ => throw (JS.new_Error "One or both engines not found")
  end.

(** [playGame] as [playMatchSet] calls it, with a starting position and the
    name of the match set. *)
Definition playGame_of (runEngineGame : RunEngineGame) : PlayGame :=
  λ engine1Id engine2Id timeControl startingPosition matchSetName engine1Color,
    playGame runEngineGame engine1Id engine2Id timeControl
      (Some startingPosition) (Some matchSetName) engine1Color.

End Play.

(** ** [src/index.ts]: the choice of the next pairing *)

Module Scheduler.

Import Database Index.

Local Open Scope R_scope.

(** A row of [getRecentGames]: the columns of [games] that the scheduler
    reads.  The query selects by [played_at], which the model of the
    database does not hold; its result is a parameter below.
    [engine1_rating_after] is nullable. *)
Record RecentGame := mkRecentGame {
  rg_engine1_id : Z;
  rg_engine2_id : Z;
  rg_engine1_rating_before : Z;
  rg_engine1_rating_after : option Z
}.

(** [a || b] for a nullable number [a]: [NULL] and [0] are falsy. *)
Definition or_else (a : option Z) (b : Z) : Z :=
  match a with
  | Some v => if bool_decide (v = 0%Z) then b else v
  | None => b
  end.

(** [xs.slice(-n)]: the last [n] elements, all if there are fewer. *)
Definition slice_last {A} (n : nat) (xs : list A) : list A :=
  drop (length xs - n) xs.

(** [xs.reduce((a, b) => a + b, 0)] *)
Definition sum (xs : list R) : R := foldl Rplus 0 xs.

(** [calculateUncertainty(engine, recentGames)] *)
Definition calculateUncertainty (engine : EngineRow)
    (recentGames : list RecentGame) : R :=
  let baseUncertainty := Rmax 0.1 (1 - IZR (e_games_played engine) / 100) in
  if bool_decide (2 ≤ length recentGames)%nat then
    let ratingChanges :=
      (λ game,
         IZR (Z.abs (or_else (rg_engine1_rating_after game)
                       (rg_engine1_rating_before game)
                     - rg_engine1_rating_before game)))
        <$> slice_last 10 recentGames in
    let avgChange := sum ratingChanges / INR (length ratingChanges) in
    let volatility := Rmin 0.5 (avgChange / 100) in
    Rmin 1 (baseUncertainty + volatility)
  else baseUncertainty.

(** An element of [pairings]. *)
Record Pairing := mkPairing {
  pairing_engines : Z * Z;
  weight : R
}.

(** The match set of the configuration: the default one by name, else the
    first; without any, the standard match set. *)
Definition standard_matchSet : MatchSet :=
  mkMatchSet "Standard" (Some "Standard starting position")
    [mkStartingPosition "Initial Position"
       (Some "Standard chess starting position") [] None]
    2.

Definition choose_matchSet (tournamentConfig : option TournamentConfig)
    : MatchSet :=
  match tournamentConfig with
  | Some config =>
      match t_matchSets (c_tournament config) with
      | Some (first :: _ as matchSets) =>
          let found :=
            match t_defaultMatchSet (c_tournament config) with
            | Some defaultMatchSetName =>
                if bool_decide (defaultMatchSetName = "") then None
                else List.find
                       (λ ms, bool_decide (m_name ms = defaultMatchSetName))
                       matchSets
            | None => None
            end in
          default first found
      | _ => standard_matchSet
      end
  | None => standard_matchSet
  end.

(** The weight of the pairing of [engine1] and [engine2]: the body of the
    inner loop. *)
Definition pairing_weight (recentGames : list RecentGame)
    (pairCounts : gmap string Z) (engine1 engine2 : EngineRow) : R :=
  let uncertainty1 :=
    calculateUncertainty engine1
      (filter (λ g, rg_engine1_id g = e_id engine1
                    ∨ rg_engine2_id g = e_id engine1) recentGames) in
  let uncertainty2 :=
    calculateUncertainty engine2
      (filter (λ g, rg_engine1_id g = e_id engine2
                    ∨ rg_engine2_id g = e_id engine2) recentGames) in
  let ratingDiff := IZR (Z.abs (e_rating engine1 - e_rating engine2)) in
  let ratingProximity := 1 / (1 + ratingDiff / 200) in
  let avgRating := IZR (e_rating engine1 + e_rating engine2) / 2 in
  let ratingPreference := Rmin 1 (avgRating / 2000) in
  let pairKey := pair_key (e_id engine1) (e_id engine2) in
  let gameCount := default 0%Z (pairCounts !! pairKey) in
  let gameFrequency := Rmax 0.1 (1 - IZR gameCount / 50) in
  let uncertaintyWeight := (uncertainty1 + uncertainty2) / 2 in
  uncertaintyWeight * 0.4 + ratingProximity * 0.3 + ratingPreference * 0.2
  + gameFrequency * 0.1.

(** The two loops over [i < j]: the pairings in the order in which they are
    pushed. *)
Fixpoint all_pairings (weight_of : EngineRow → EngineRow → R)
    (engines : list EngineRow) : list Pairing :=
  match engines with
  | [] => []
  | engine1 :: engines' =>
      ((λ engine2,
          mkPairing (e_id engine1, e_id engine2) (weight_of engine1 engine2))
         <$> engines')
      ++ all_pairings weight_of engines'
  end.

(** [pairings.sort((a, b) => b.weight - a.weight)]: by weight, the largest
    first; the sort is stable, so pairings of equal weight keep their
    order. *)
Fixpoint insert_by_weight (p : Pairing) (sorted : list Pairing) : list Pairing :=
  match sorted with
  | [] => [p]
  | q :: sorted' =>
      if Rlt_dec (weight p) (weight q) then q :: insert_by_weight p sorted'
      else p :: q :: sorted'
  end.

Definition sort_by_weight (pairings : list Pairing) : list Pairing :=
  foldr insert_by_weight [] pairings.

(** The loop over [topCandidates]: the first pairing at which the running
    [random] is used up. *)
Fixpoint pick (random : R) (candidates : list Pairing) : option Pairing :=
  match candidates with
  | [] => None
  | pairing :: candidates' =>
      let random := random - weight pairing in
      if Rle_dec random 0 then Some pairing else pick random candidates'
  end.

#[global] Instance R_eq_dec : EqDecision R := Req_dec_T.

(** [selectOptimalPairing(engines, tournamentConfig)]; [getRecentGames] is
    the query for the games of the last 24 hours and [random] the value of
    the one call of [Math.random()] that is made. *)
Definition selectOptimalPairing (getRecentGames : M Db (list RecentGame))
    (random : R) (engines : list EngineRow)
    (tournamentConfig : option TournamentConfig)
    : M Db (option (Z * Z * MatchSet)) :=
  if bool_decide (length engines < 2)%nat then mret None
  else
    recentGames ← getRecentGames;
    pairCounts ← getPairGameCounts;
    let matchSet := choose_matchSet tournamentConfig in
    let pairings :=
      sort_by_weight
        (all_pairings (pairing_weight recentGames pairCounts) engines) in
    if bool_decide (length pairings = 0%nat) then mret None
    else
      let topCandidates := take (5 `min` length pairings) pairings in
      let totalWeight := foldl (λ sum p, sum + weight p) 0 topCandidates in
      let selected (p : option Pairing) :=
        (λ p, ((pairing_engines p).1, (pairing_engines p).2, matchSet)) <$> p in
      if bool_decide (totalWeight = 0)
         || bool_decide (length topCandidates = 0%nat) then
        let randomIndex := Zfloor (random * INR (length pairings)) in
        mret (selected
                (if bool_decide (0 ≤ randomIndex)%Z
                 then pairings !! Z.to_nat randomIndex else None))
      else
        match pick (random * totalWeight) topCandidates with
        | Some pairing => mret (selected (Some pairing))
        | None => mret (selected (head topCandidates))
        end.

End Scheduler.

(** ** IEEE 754 double precision, the arithmetic of JavaScript numbers *)

Module Double.

Local Open Scope R_scope.

(** [floor (log2 |x|)], the exponent of the binade of [x]. *)
Definition exponent (x : R) : Z := Zfloor (ln (Rabs x) / ln 2).

(** The distance between the doubles of the binade of [x]: a double has 53
    significant bits.  The exponent is not bounded here: there is no
    overflow to [Infinity] and there are no subnormal numbers, which is how
    doubles behave between [2^-1022] and [2^1024]. *)
Definition ulp (x : R) : R := powerRZ 2 (exponent x - 52).

(** The integer nearest to [y], the even one of two that are equally
    near. *)
Definition nearest_even (y : R) : Z :=
  let f := Zfloor y in
  if Rlt_dec (y - IZR f) (1 / 2) then f
  else if Rlt_dec (1 / 2) (y - IZR f) then (f + 1)%Z
  else if Z.even f then f else (f + 1)%Z.

(** The double nearest to [x] (round to nearest, ties to even). *)
Definition round (x : R) : R :=
  if Req_dec_T x 0 then 0 else IZR (nearest_even (x / ulp x)) * ulp x.

(** The operators [+], [-], [*] and [/] on doubles: the exact result,
    rounded. *)
Definition add (x y : R) : R := round (x + y).
Definition sub (x y : R) : R := round (x - y).
Definition mul (x y : R) : R := round (x * y).
Definition div (x y : R) : R := round (x / y).

(** [Math.pow(b, x)] for a positive base: the power, rounded.  (ECMAScript
    leaves the accuracy of [Math.pow] to the implementation; results that
    are doubles, such as [Math.pow(10, 1)], are returned exactly.) *)
Definition pow (b x : R) : R := round (Rpower b x).

End Double.

(** ** The Elo update on doubles *)

Module EloDouble.

Local Open Scope R_scope.

(** [calculateEloChange(ratingA, ratingB, scoreA, k = 32)] of the tests,
    operation by operation on doubles.  [Math.round] of a double is
    [JS.round] of its value. *)
Definition calculateEloChange (ratingA ratingB scoreA k : R) : Z * Z :=
  let expectedA :=
    Double.div 1
      (Double.add 1
         (Double.pow 10 (Double.div (Double.sub ratingB ratingA) 400))) in
  let expectedB :=
    Double.div 1
      (Double.add 1
         (Double.pow 10 (Double.div (Double.sub ratingA ratingB) 400))) in
  let scoreB := Double.sub 1 scoreA in
  let newRatingA :=
    JS.round (Double.add ratingA (Double.mul k (Double.sub scoreA expectedA))) in
  let newRatingB :=
    JS.round (Double.add ratingB (Double.mul k (Double.sub scoreB expectedB))) in
  (newRatingA, newRatingB).

(** The rating deltas [newRating - rating] of a call with integer ratings
    and the default [k]. *)
Definition calculateEloChange_deltas (R1 R2 : Z) (A1 : R) : Z * Z :=
  let '(newRatingA, newRatingB) :=
    calculateEloChange (IZR R1) (IZR R2) A1 Elo.K in
  ((newRatingA - R1)%Z, (newRatingB - R2)%Z).

(** The statements of [recordMatchSetResult] between reading the two
    ratings and writing them back, operation by operation on doubles:
    [[ratingChange1, ratingChange2]] from the two ratings, the two scores
    and [totalGames]. *)
Definition ratingChanges (engine1Rating engine2Rating : Z)
    (engine1Score engine2Score : R) (totalGames : Z) : Z * Z :=
  let expectedScore1 :=
    Double.div 1
      (Double.add 1
         (Double.pow 10
            (Double.div
               (Double.sub (IZR engine2Rating) (IZR engine1Rating)) 400))) in
  let expectedScore2 := Double.sub 1 expectedScore1 in
  let actualScore1 := Double.div engine1Score (IZR totalGames) in
  let actualScore2 := Double.div engine2Score (IZR totalGames) in
  let K := 32 in
  let ratingChange1 :=
    JS.round (Double.mul K (Double.sub actualScore1 expectedScore1)) in
  let ratingChange2 :=
    JS.round (Double.mul K (Double.sub actualScore2 expectedScore2)) in
  (ratingChange1, ratingChange2).


End EloDouble.

(** * Properties *)

(** ** Arithmetic of [Math.round] and [Math.pow] *)

Section js_arithmetic.

Local Open Scope R_scope.


Lemma round_eq (z : Z) x :
  IZR z - 1 / 2 <= x < IZR z + 1 / 2 → JS.round x = z.
Proof. intros H. unfold JS.round. apply Zfloor_eq. lra. Qed.






End js_arithmetic.

(** ** The Elo update *)

Section elo.

Local Open Scope R_scope.


Lemma ratingChanges_eq (R1 R2 : Z) (A1 A2 : R) :
  Elo.ratingChanges R1 R2 A1 A2
  = (JS.round (32 * (A1 - 1 / (1 + JS.pow 10 ((IZR R2 - IZR R1) / 400)))),
     JS.round (32 * (A2
                     - (1 - 1 / (1 + JS.pow 10 ((IZR R2 - IZR R1) / 400)))))).
Proof. reflexivity. Qed.



End elo.

(** ** The persistence adapter *)

Section database.

Import Database.

Lemma bind_unfold {S A B} (m : M S A) (k : A → M S B) (s : S) :
  (m ≫= k) s
  = match m s with
    | (inl e, s') => (inl e, s')
    | (inr a, s') => k a s'
    end.
Proof. reflexivity. Qed.

(** A query for the rating of an id that no row has returns no row. *)
Lemma SELECT_rating_missing (id : Z) (db : Db) :
  id ∉ e_id <$> engines db → SELECT_rating id db = (inr [], db).
Proof.
  intros Hid. unfold SELECT_rating. do 2 f_equal.
  induction (engines db) as [|e es IH]; [reflexivity|].
  rewrite fmap_cons, not_elem_of_cons in Hid. destruct Hid as [Hne Hid].
  rewrite filter_cons_False by congruence. auto.
Qed.

Lemma SELECT_rating_state (id : Z) (db : Db) : (SELECT_rating id db).2 = db.
Proof. reflexivity. Qed.

(** C8. For every game whose [engine1Id] or [engine2Id] has no row in
    [engines], [recordGameResult] throws [Error('One or both engines not
    found')] and leaves the database, hence the [games] table, as it was:
    both ratings are read before the insert. *)
Theorem recordGameResult_engine_not_found (gameResult : GameResult)
    (shouldUpdateRatings : bool) (db : Db) :
  engine1Id gameResult ∉ e_id <$> engines db
  ∨ engine2Id gameResult ∉ e_id <$> engines db →
  recordGameResult gameResult shouldUpdateRatings db
  = (inl (JS.new_Error "One or both engines not found"), db)
  ∧ games (recordGameResult gameResult shouldUpdateRatings db).2 = games db.
Proof.
  intros Hmissing.
  assert (recordGameResult gameResult shouldUpdateRatings db
          = (inl (JS.new_Error "One or both engines not found"), db)) as Heq.
  { unfold recordGameResult. rewrite !bind_unfold.
    destruct Hmissing as [H1|H2].
    - rewrite (SELECT_rating_missing _ _ H1). cbn [fst snd].
      rewrite bind_unfold.
      destruct (SELECT_rating (engine2Id gameResult) db) as [r db'] eqn:E2.
      pose proof (SELECT_rating_state (engine2Id gameResult) db) as Hst.
      rewrite E2 in Hst. simpl in Hst. subst db'.
      unfold SELECT_rating in E2. injection E2 as <-. reflexivity.
    - destruct (SELECT_rating (engine1Id gameResult) db) as [r db'] eqn:E1.
      pose proof (SELECT_rating_state (engine1Id gameResult) db) as Hst.
      rewrite E1 in Hst. simpl in Hst. subst db'.
      unfold SELECT_rating in E1. injection E1 as <-.
      rewrite bind_unfold, (SELECT_rating_missing _ _ H2).
      rewrite orb_true_r. reflexivity. }
  split; [exact Heq|]. rewrite Heq. reflexivity.
Qed.

(** An instance: a game of the unknown engine 999 against engine 1. *)
Lemma recordGameResult_engine_not_found_witness :
  let db := mkDb [mkEngineRow 1 "Engine1" None 1500 0 0 0 0] 1 [] 0 in
  let gameResult :=
    mkGameResult 999 1 win None None None None None None None None in
  recordGameResult gameResult true db
  = (inl (JS.new_Error "One or both engines not found"), db)
  ∧ games (recordGameResult gameResult true db).2 = games db.
Proof.
  intros db gameResult.
  apply (recordGameResult_engine_not_found gameResult true db).
  left. simpl. rewrite list_elem_of_singleton. discriminate.
Defined.

End database.

Section add_engine.

Import Database.

(** An insert of a name that no row has succeeds, takes the next id of the
    sequence, and appends the row. *)
Lemma INSERT_engine_fresh (name : string) (rating : Z)
    (description : option string) (db : Db) :
  name ∉ e_name <$> engines db →
  INSERT_engine name rating description db
  = (inr (engines_id_seq db + 1)%Z,
     mkDb (engines db ++
             [mkEngineRow (engines_id_seq db + 1) name description rating 0 0 0 0])
          (engines_id_seq db + 1) (games db) (games_id_seq db)).
Proof.
  intros Hfresh. unfold INSERT_engine.
  rewrite bool_decide_eq_false_2 by exact Hfresh. reflexivity.
Qed.

(** An insert of a name that some row has is rejected; only the sequence
    moves. *)
Lemma INSERT_engine_duplicate (name : string) (rating : Z)
    (description : option string) (db : Db) :
  name ∈ e_name <$> engines db →
  INSERT_engine name rating description db
  = (inl unique_violation,
     mkDb (engines db) (engines_id_seq db + 1) (games db) (games_id_seq db)).
Proof.
  intros Hdup. unfold INSERT_engine.
  rewrite bool_decide_eq_true_2 by exact Hdup. reflexivity.
Qed.

(** C9. [addEngine] called without a rating inserts the engine with rating
    1500, which is the default of the column, and with the description it
    was given, [NULL] when there is none; every call that succeeds returns
    the id of the row it has appended.  (A call succeeds exactly when the
    name is new.) *)
Theorem addEngine_default_rating (name : string) (description : option string)
    (db : Db) :
  name ∉ e_name <$> engines db →
  ∃ id,
    addEngine name None description db
    = (inr id,
       mkDb (engines db ++ [mkEngineRow id name description 1500 0 0 0 0])
            id (games db) (games_id_seq db))
    ∧ rating_DEFAULT = 1500%Z
    ∧ (∀ rating id' db',
         addEngine name rating description db = (inr id', db') →
         ∃ row, engines db' = engines db ++ [row]
                ∧ e_id row = id' ∧ e_name row = name
                ∧ e_description row = description
                ∧ e_rating row = default 1500%Z rating).
Proof.
  intros Hfresh. exists (engines_id_seq db + 1)%Z.
  split; [|split].
  - unfold addEngine. simpl. apply INSERT_engine_fresh, Hfresh.
  - reflexivity.
  - intros rating id' db'. unfold addEngine.
    rewrite INSERT_engine_fresh by exact Hfresh.
    intros [= <- <-]. simpl. eauto 10.
Qed.

(** An instance: a second engine added without rating and description. *)
Lemma addEngine_default_rating_witness :
  let db := mkDb [mkEngineRow 1 "Engine1" None 1600 0 0 0 0] 1 [] 0 in
  ∃ id,
    addEngine "TestEngine" None None db
    = (inr id,
       mkDb (engines db ++ [mkEngineRow id "TestEngine" None 1500 0 0 0 0])
            id (games db) (games_id_seq db))
    ∧ rating_DEFAULT = 1500%Z
    ∧ (∀ rating id' db',
         addEngine "TestEngine" rating None db = (inr id', db') →
         ∃ row, engines db' = engines db ++ [row]
                ∧ e_id row = id' ∧ e_name row = "TestEngine"
                ∧ e_description row = None
                ∧ e_rating row = default 1500%Z rating).
Proof.
  intros db. apply (addEngine_default_rating "TestEngine" None db).
  simpl. rewrite list_elem_of_singleton. discriminate.
Defined.

End add_engine.

Section rankings.

Import Database.

#[local] Instance rating_DESC_transitive : Transitive rating_DESC.
Proof. intros x y z. unfold rating_DESC. lia. Qed.

#[local] Instance rating_DESC_total : Total rating_DESC.
Proof. intros x y. unfold rating_DESC. lia. Qed.

Lemma StronglySorted_take {A} (R : relation A) (n : nat) (l : list A) :
  StronglySorted R l → StronglySorted R (take n l).
Proof.
  intros Hl. revert n. induction Hl as [|x l Hl IH Hx]; intros [|n]; simpl;
    try constructor; auto using Forall_take.
Qed.

(** C10. For every limit [N], [getRankings] returns at most [N] rows, taken
    from the [engines] table and sorted by rating in non-increasing order.
    The detailed variant returns the same rows in the same order and
    number, each with its [description] column added. *)
Theorem getRankings_sorted_limited (N : nat) (db : Db) :
  ∃ (selected : list EngineRow),
    getRankings (Some N) false db = (inr (select_fields false <$> selected), db)
    ∧ getRankings (Some N) true db = (inr (select_fields true <$> selected), db)
    ∧ selected ⊆ engines db
    ∧ length selected = N `min` length (engines db)
    ∧ length (select_fields false <$> selected) ≤ N
    ∧ length (select_fields true <$> selected)
      = length (select_fields false <$> selected)
    ∧ StronglySorted (λ r1 r2, (r_rating r2 ≤ r_rating r1)%Z)
        (select_fields false <$> selected)
    ∧ StronglySorted (λ r1 r2, (r_rating r2 ≤ r_rating r1)%Z)
        (select_fields true <$> selected)
    ∧ Forall2
        (λ basic detailed,
           r_description basic = None
           ∧ (∃ e, e ∈ engines db
                   ∧ r_description detailed = Some (e_description e)
                   ∧ r_name detailed = e_name e)
           ∧ basic
             = mkRankingRow (r_name detailed) (r_rating detailed)
                 (r_games_played detailed) (r_wins detailed)
                 (r_losses detailed) (r_draws detailed) None)
        (select_fields false <$> selected) (select_fields true <$> selected).
Proof.
  exists (take N (merge_sort rating_DESC (engines db))).
  assert (take N (merge_sort rating_DESC (engines db)) ⊆ engines db) as Hsub.
  { intros e He. apply subseteq_take in He.
    by rewrite merge_sort_Permutation in He. }
  assert (∀ detailed,
            StronglySorted (λ r1 r2, (r_rating r2 ≤ r_rating r1)%Z)
              (select_fields detailed
                 <$> take N (merge_sort rating_DESC (engines db)))) as Hsorted.
  { intros detailed.
    apply (StronglySorted_fmap _ rating_DESC); [auto|].
    apply StronglySorted_take, StronglySorted_merge_sort; apply _. }
  repeat split; auto.
  - rewrite length_take.
    by rewrite (Permutation_length (merge_sort_Permutation _ _)).
  - rewrite length_fmap, length_take. lia.
  - by rewrite !length_fmap.
  - apply Forall2_fmap, Forall_Forall2_diag, Forall_forall.
    intros e He. simpl. repeat split. exists e. auto.
Qed.

End rankings.

(** ** Uniqueness of engine names *)

Section unique_names.

Import Database Index System.

Lemma preserves_ret {S A} (I : S → Prop) (a : A) : preserves I (mret a).
Proof. intros s Hs. exact Hs. Qed.

Lemma preserves_throw {S A} (I : S → Prop) (e : JS.Error) :
  preserves I (throw e : M S A).
Proof. intros s Hs. exact Hs. Qed.

Lemma preserves_bind {S A B} (I : S → Prop) (m : M S A) (k : A → M S B) :
  preserves I m → (∀ a, preserves I (k a)) → preserves I (m ≫= k).
Proof.
  intros Hm Hk s Hs. rewrite bind_unfold.
  specialize (Hm s Hs). destruct (m s) as [[e|a] s']; simpl in *; [done|].
  by apply Hk.
Qed.

Lemma preserves_try_catch {S A} (I : S → Prop) (m : M S A)
    (handler : JS.Error → M S A) :
  preserves I m → (∀ e, preserves I (handler e)) →
  preserves I (try_catch m handler).
Proof.
  intros Hm Hh s Hs. unfold try_catch.
  specialize (Hm s Hs). destruct (m s) as [[e|a] s']; simpl in *; [|done].
  by apply Hh.
Qed.

Lemma preserves_for_of {S A} (I : S → Prop) (xs : list A) (body : A → M S unit) :
  (∀ x, preserves I (body x)) → preserves I (for_of xs body).
Proof.
  intros Hbody. induction xs as [|x xs IH]; simpl.
  - apply preserves_ret.
  - apply preserves_bind; auto.
Qed.

Lemma preserves_pool {A} (I : Db → Prop) (query : M Db A) :
  preserves I query → preserves (λ app, I (db app)) (pool query).
Proof.
  intros Hq app Happ. unfold pool.
  specialize (Hq (db app) Happ). by destruct (query (db app)).
Qed.

Lemma preserves_console_write (I : Db → Prop) (level : Level) (line : string) :
  preserves (λ app, I (db app)) (console_write level line).
Proof. intros app Happ. exact Happ. Qed.

Lemma preserves_first_rating {S} (I : S → Prop) (rows : list Z) :
  preserves I (first_rating rows).
Proof. destruct rows; [apply preserves_throw|apply preserves_ret]. Qed.

(** An update that does not touch the [name] column keeps the names. *)
Lemma UPDATE_engines_names (cond : EngineRow → bool)
    (set : EngineRow → EngineRow) (db : Db) :
  (∀ e, e_name (set e) = e_name e) →
  e_name <$> engines (UPDATE_engines cond set db).2 = e_name <$> engines db.
Proof.
  intros Hset. simpl. rewrite <- list_fmap_compose.
  apply list_fmap_ext. intros i e _. simpl. by destruct (cond e).
Qed.

Lemma preserves_UPDATE_engines (cond : EngineRow → bool)
    (set : EngineRow → EngineRow) :
  (∀ e, e_name (set e) = e_name e) →
  preserves unique_names (UPDATE_engines cond set).
Proof.
  intros Hset db Hdb. unfold unique_names.
  by rewrite UPDATE_engines_names.
Qed.

Lemma preserves_SELECT_rating (id : Z) : preserves unique_names (SELECT_rating id).
Proof. intros db Hdb. exact Hdb. Qed.

Lemma preserves_INSERT_game (row : Z → GameRow) :
  preserves unique_names (INSERT_game row).
Proof. intros db Hdb. exact Hdb. Qed.

Lemma preserves_INSERT_engine (name : string) (rating : Z)
    (description : option string) :
  preserves unique_names (INSERT_engine name rating description).
Proof.
  intros db Hdb. unfold INSERT_engine. case_bool_decide as Hname; simpl.
  - exact Hdb.
  - unfold unique_names in *. simpl. rewrite fmap_app. simpl.
    apply NoDup_app. split; [exact Hdb|]. split.
    + intros x Hx. rewrite list_elem_of_singleton. by intros ->.
    + apply NoDup_singleton.
Qed.

Lemma preserves_addEngine (name : string) (rating : option Z)
    (description : option string) :
  preserves unique_names (addEngine name rating description).
Proof. apply preserves_INSERT_engine. Qed.

Create HintDb preserves.

#[local] Hint Resolve preserves_ret preserves_throw preserves_first_rating
  preserves_SELECT_rating preserves_INSERT_game preserves_INSERT_engine
  preserves_addEngine preserves_console_write : preserves.

Ltac preserves_step :=
  match goal with
  | |- preserves _ (_ ≫= _) => apply preserves_bind; [|intros ?]
  | |- preserves _ (try_catch _ _) => apply preserves_try_catch; [|intros ?]
  | |- preserves _ (pool _) => apply (preserves_pool unique_names)
  | |- preserves _ (UPDATE_engines _ _) =>
      apply preserves_UPDATE_engines; intros []; reflexivity
  | |- preserves _ (console_log _) => apply preserves_console_write
  | |- preserves _ (console_warn _) => apply preserves_console_write
  | |- preserves _ (console_error _) => apply preserves_console_write
  | |- preserves _ (if ?b then _ else _) => destruct b
  | |- preserves _ (match ?x with _ => _ end) => destruct x
  | |- preserves _ _ => solve [auto with preserves]
  end.

Lemma preserves_updateRatings (engine1Id engine2Id : Z) (isDraw : bool) :
  preserves unique_names (updateRatings engine1Id engine2Id isDraw).
Proof. unfold updateRatings. repeat preserves_step. Qed.

Lemma preserves_recordGameResult (gameResult : GameResult)
    (shouldUpdateRatings : bool) :
  preserves unique_names (recordGameResult gameResult shouldUpdateRatings).
Proof.
  unfold recordGameResult. repeat preserves_step.
  all: apply preserves_updateRatings.
Qed.

Lemma preserves_SELECT_id_by_name (name : string) :
  preserves unique_names (SELECT_id_by_name name).
Proof. intros db Hdb. exact Hdb. Qed.

Lemma preserves_SELECT_count_engines :
  preserves unique_names SELECT_count_engines.
Proof. intros db Hdb. exact Hdb. Qed.

Lemma preserves_UPDATE_description_rating (description : option string)
    (rating : Z) (name : string) :
  preserves unique_names (UPDATE_description_rating description rating name).
Proof. unfold UPDATE_description_rating. preserves_step. Qed.

Lemma preserves_UPDATE_rating (newRating id : Z) :
  preserves unique_names (UPDATE_rating newRating id).
Proof. unfold UPDATE_rating. preserves_step. Qed.

#[local] Hint Resolve preserves_SELECT_id_by_name preserves_SELECT_count_engines
  preserves_UPDATE_description_rating preserves_UPDATE_rating : preserves.

Lemma preserves_readFileSync (node : Node) (path : string) :
  preserves (λ app, unique_names (db app)) (readFileSync node path).
Proof. unfold readFileSync. repeat preserves_step. Qed.

Lemma preserves_parse_config (node : Node) (configData : string) :
  preserves (λ app, unique_names (db app)) (parse_config node configData).
Proof. unfold parse_config. repeat preserves_step. Qed.

Lemma preserves_load_engine (replace : bool) (engineConfig : EngineConfig)
    (counters : Z * Z) :
  preserves (λ app, unique_names (db app))
    (load_engine replace engineConfig counters).
Proof.
  unfold load_engine. destruct counters as [loaded skipped].
  repeat preserves_step.
Qed.

Lemma preserves_load_engines (replace : bool) (engines : list EngineConfig)
    (counters : Z * Z) :
  preserves (λ app, unique_names (db app))
    (load_engines replace engines counters).
Proof.
  revert counters. induction engines as [|engineConfig engines IH];
    intros counters; simpl.
  - apply preserves_ret.
  - apply preserves_bind; [apply preserves_load_engine|auto].
Qed.

Lemma preserves_loadEnginesFromConfig (node : Node) (configPath : string)
    (replace : bool) :
  preserves (λ app, unique_names (db app))
    (loadEnginesFromConfig node configPath replace).
Proof.
  unfold loadEnginesFromConfig.
  repeat first
    [ apply preserves_readFileSync | apply preserves_parse_config
    | apply preserves_load_engines | preserves_step ].
Qed.

Lemma preserves_autoLoadEngines (node : Node) :
  preserves (λ app, unique_names (db app)) (autoLoadEngines node).
Proof.
  unfold autoLoadEngines.
  repeat first [ apply preserves_loadEnginesFromConfig | preserves_step ].
Qed.

Lemma preserves_recordMatchSetResult (matchSetResult : MatchSetResult) :
  preserves (λ app, unique_names (db app)) (recordMatchSetResult matchSetResult).
Proof.
  intros app Happ. unfold recordMatchSetResult.
  match goal with
  | |- context [try_catch ?m ?h app] =>
      assert (preserves (λ app, unique_names (db app)) m) as Hbody;
      [|specialize (Hbody app Happ); unfold try_catch;
        destruct (m app) as [[e|a] app']; simpl in *; [|done]]
  end.
  - apply preserves_bind.
    + apply preserves_for_of. intros game.
      apply (preserves_pool unique_names), preserves_recordGameResult.
    + intros _. repeat preserves_step.
  - exact Happ.
Qed.

(** Every call keeps the names unique. *)
Lemma run_unique_names (call : Call) (app : App) :
  unique_names (db app) → unique_names (db (run call app)).
Proof.
  intros Happ. destruct call; simpl.
  - exact (preserves_pool unique_names _ (preserves_addEngine _ _ _) app Happ).
  - exact (preserves_pool unique_names _ (preserves_updateRatings _ _ _) app Happ).
  - exact (preserves_pool unique_names _ (preserves_recordGameResult _ _) app Happ).
  - exact (preserves_loadEnginesFromConfig _ _ _ app Happ).
  - exact (preserves_autoLoadEngines _ app Happ).
  - exact (preserves_recordMatchSetResult _ app Happ).
Qed.

Lemma reachable_unique_names (app : App) :
  reachable app → unique_names (db app).
Proof.
  induction 1 as [|call app _ IH].
  - apply NoDup_nil_2.
  - by apply run_unique_names.
Qed.

(** C7. Engine names are unique: in every state the program can reach, no
    two rows of [engines] share a name; and [addEngine] with a name that
    some row already has fails with the unique-constraint error and leaves
    the [engines] table as it was. *)
Theorem engine_names_unique (app : App) :
  reachable app →
  NoDup (e_name <$> engines (db app))
  ∧ ∀ name rating description,
      name ∈ e_name <$> engines (db app) →
      ∃ db',
        addEngine name rating description (db app) = (inl unique_violation, db')
        ∧ engines db' = engines (db app).
Proof.
  intros Hreach. split.
  - by apply reachable_unique_names.
  - intros name rating description Hdup. unfold addEngine.
    rewrite INSERT_engine_duplicate by exact Hdup. eauto.
Qed.

(** An instance: the state after adding ["UniqueEngine"] twice. *)
Lemma engine_names_unique_witness :
  let app :=
    run (CallAddEngine "UniqueEngine" None None)
      (run (CallAddEngine "UniqueEngine" None None) (mkApp empty_db [])) in
  NoDup (e_name <$> engines (db app))
  ∧ ∀ name rating description,
      name ∈ e_name <$> engines (db app) →
      ∃ db',
        addEngine name rating description (db app) = (inl unique_violation, db')
        ∧ engines db' = engines (db app).
Proof.
  intros app. apply (engine_names_unique app).
  unfold app. do 2 apply reachable_run. apply reachable_init.
Defined.

End unique_names.

(** ** Starting without a configuration file *)

Section configuration.

Import Database Index.

Lemma existsSync_missing (node : Node) (path : string) :
  files node !! path_resolve node path = None → existsSync node path = false.
Proof.
  intros Hnone. unfold existsSync. rewrite Hnone.
  apply bool_decide_eq_false_2. by intros [? ?].
Qed.

(** C5. When the engines configuration file does not exist, starting the
    program raises no error and loads no engine: [autoLoadEngines] returns,
    the database is as it was, and the console gets the notice that no
    configuration file was found, once, followed by a hint on how to add
    engines.  The same holds for the start of [main], which writes its
    banner first. *)
Theorem startup_missing_config_file (node : Node) (app : App) :
  files node !! path_resolve node (DEFAULT_CONFIG_FILE node) = None →
  autoLoadEngines node app
  = (inr tt,
     mkApp (db app)
       (console app ++
          [(Log, "ℹ️  No config file found at " +:+ DEFAULT_CONFIG_FILE node);
           (Log, "ℹ️  Create an engines.json file or use load-config command to add engines")]))
  ∧ startup node app
    = (inr tt,
       mkApp (db app)
         (console app ++
            [(Log, "🎮 UGI Rankings System");
             (Log, "ℹ️  No config file found at " +:+ DEFAULT_CONFIG_FILE node);
             (Log, "ℹ️  Create an engines.json file or use load-config command to add engines")])).
Proof.
  intros Hmissing. apply existsSync_missing in Hmissing.
  assert (∀ app',
            autoLoadEngines node app'
            = (inr tt,
               mkApp (db app')
                 (console app' ++
                    [(Log, "ℹ️  No config file found at "
                           +:+ DEFAULT_CONFIG_FILE node);
                     (Log, "ℹ️  Create an engines.json file or use load-config command to add engines")])))
    as Hauto.
  { intros app'. unfold autoLoadEngines. rewrite Hmissing. simpl.
    rewrite bind_unfold. simpl. unfold console_log, console_write. simpl.
    by rewrite <- app_assoc. }
  split; [apply Hauto|].
  unfold startup. rewrite bind_unfold. unfold console_log, console_write.
  rewrite Hauto. simpl. by rewrite <- app_assoc.
Qed.

(** An instance: a process whose file system holds no file, on a database
    with one engine. *)
Lemma startup_missing_config_file_witness :
  let node :=
    mkNode (λ path, "/app/" +:+ path)
      (λ _, inl (JS.mkError "SyntaxError" "Unexpected end of JSON input"))
      ∅ None in
  let app := mkApp (mkDb [mkEngineRow 1 "Engine1" None 1500 0 0 0 0] 1 [] 0) [] in
  autoLoadEngines node app
  = (inr tt,
     mkApp (db app)
       (console app ++
          [(Log, "ℹ️  No config file found at " +:+ DEFAULT_CONFIG_FILE node);
           (Log, "ℹ️  Create an engines.json file or use load-config command to add engines")]))
  ∧ startup node app
    = (inr tt,
       mkApp (db app)
         (console app ++
            [(Log, "🎮 UGI Rankings System");
             (Log, "ℹ️  No config file found at " +:+ DEFAULT_CONFIG_FILE node);
             (Log, "ℹ️  Create an engines.json file or use load-config command to add engines")])).
Proof.
  intros node app. apply (startup_missing_config_file node app).
  apply lookup_empty.
Defined.

(** The later lookup of one engine's configuration is another matter:
    [getEngineWithConfig], which runs when a game is played, reports a
    missing file on the console and throws. *)
Lemma getEngineWithConfig_missing_file (node : Node) (engineDbRow : EngineRow)
    (app : App) :
  let configFile := path_resolve node (DEFAULT_CONFIG_FILE node) in
  files node !! path_resolve node configFile = None →
  getEngineWithConfig node engineDbRow app
  = (inl (JS.new_Error ("Configuration file not found: " +:+ configFile)),
     mkApp (db app)
       (console app ++
          [(Err, "❌ Failed to load configuration for engine "
                 +:+ e_name engineDbRow +:+ ": "
                 +:+ JS.Error_toString
                       (JS.new_Error ("Configuration file not found: "
                                      +:+ configFile)))])).
Proof.
  intros configFile Hmissing. apply existsSync_missing in Hmissing.
  unfold getEngineWithConfig, try_catch. fold configFile.
  rewrite Hmissing. reflexivity.
Qed.

End configuration.

(** ** Match sets with games that ended in an error *)

Section match_set.

Import Database Index.

Local Open Scope R_scope.

Lemma pow_10_zero : JS.pow 10 ((IZR 1500 - IZR 1500) / 400) = 1.
Proof.
  replace ((IZR 1500 - IZR 1500) / 400) with 0 by lra.
  unfold JS.pow. apply Rpower_O. lra.
Qed.

(** Equal ratings and no point out of two games: each side loses 16. *)
Lemma ratingChanges_no_points :
  Elo.ratingChanges 1500 1500 (0 / IZR 2) (0 / IZR 2) = (-16, -16)%Z.
Proof.
  rewrite ratingChanges_eq, pow_10_zero.
  f_equal; apply round_eq; lra.
Qed.

(** Equal ratings, one point for the first side and none for the second out
    of two games: the first side keeps its rating, the second loses 16. *)
Lemma ratingChanges_one_point :
  Elo.ratingChanges 1500 1500 ((0 + 1) / IZR 2) (0 / IZR 2) = (0, -16)%Z.
Proof.
  rewrite ratingChanges_eq, pow_10_zero.
  f_equal; apply round_eq; lra.
Qed.

Ltac record_match_set changes :=
  unfold recordMatchSetResult, try_catch; rewrite bind_unfold;
  match goal with
  | |- context [for_of ?games ?body ?app] =>
      let r := eval vm_compute in (for_of games body app) in
      assert (for_of games body app = r) as -> by (vm_compute; reflexivity)
  end;
  cbv -[Elo.ratingChanges IZR Rdiv Rplus JS.Number_toString signed String.app];
  rewrite changes; reflexivity.

(** C4, at a match set whose two games both ended in an error.
    [playMatchSet] records both games, gives no point to either engine and
    sets [totalGames] to 2; [recordMatchSetResult] inserts both game rows,
    divides the scores by [totalGames = 2], commits, and both ratings drop
    from 1500 to 1484. *)
Theorem recordMatchSetResult_all_errors :
  let app :=
    mkApp (mkDb [mkEngineRow 1 "Engine1" None 1500 0 0 0 0;
                 mkEngineRow 2 "Engine2" None 1500 0 0 0 0] 2 [] 0) [] in
  let crashed (color : Color) :=
    mkGameResult 1 2 error None None (Some "Engine crashed") None
      (Some "Initial Position") (Some "Standard") (Some color)
      (Some (match color with white => black | black => white end)) in
  let playGame : PlayGame :=
    λ _ _ _ _ _ engine1Color, mret (crashed engine1Color) in
  let matchSet :=
    mkMatchSet "Standard" (Some "Standard starting position")
      [mkStartingPosition "Initial Position" None [] None] 2 in
  let matchSetResult :=
    mkMatchSetResult 1 2 "Standard" [crashed white; crashed black] 0 0 2 true in
  playMatchSet playGame 1 2 "10+0.1" matchSet app = (inr matchSetResult, app)
  ∧ ∃ app',
      recordMatchSetResult matchSetResult app = (inr tt, app')
      ∧ g_error_message <$> games (db app')
        = [Some "Engine crashed"; Some "Engine crashed"]
      ∧ e_rating <$> engines (db app') = [1484; 1484]%Z
      ∧ e_rating <$> engines (db app) = [1500; 1500]%Z.
Proof.
  intros app crashed playGame matchSet matchSetResult. split.
  - reflexivity.
  - eexists. split; [record_match_set ratingChanges_no_points|].
    repeat split; reflexivity.
Qed.

(** The same defect with one game won and one ended in an error: the score
    of the first engine is divided by 2, not by the one game that counts,
    so its rating stays at 1500 instead of rising, while the second engine
    loses 16. *)
Lemma recordMatchSetResult_win_and_error :
  let app :=
    mkApp (mkDb [mkEngineRow 1 "Engine1" None 1500 0 0 0 0;
                 mkEngineRow 2 "Engine2" None 1500 0 0 0 0] 2 [] 0) [] in
  let won :=
    mkGameResult 1 2 win (Some ["a1"]) (Some 120%Z) None None
      (Some "Initial Position") (Some "Standard") (Some white) (Some black) in
  let crashed :=
    mkGameResult 1 2 error None None (Some "Engine crashed") None
      (Some "Initial Position") (Some "Standard") (Some black) (Some white) in
  let playGame : PlayGame :=
    λ _ _ _ _ _ engine1Color,
      mret (match engine1Color with white => won | black => crashed end) in
  let matchSet :=
    mkMatchSet "Standard" (Some "Standard starting position")
      [mkStartingPosition "Initial Position" None [] None] 2 in
  let matchSetResult :=
    mkMatchSetResult 1 2 "Standard" [won; crashed] (0 + 1) 0 2 true in
  playMatchSet playGame 1 2 "10+0.1" matchSet app = (inr matchSetResult, app)
  ∧ ∃ app',
      recordMatchSetResult matchSetResult app = (inr tt, app')
      ∧ e_rating <$> engines (db app') = [1500; 1484]%Z.
Proof.
  intros app won crashed playGame matchSet matchSetResult. split.
  - reflexivity.
  - eexists. split; [record_match_set ratingChanges_one_point|].
    reflexivity.
Qed.

End match_set.

(** ** Game counts of pairs played in both orders *)

Section pair_counts.

Import Database.

(** The characters of a string. *)
#[local] Abbreviation chars := String.list_ascii_of_string.

Lemma chars_app (s1 s2 : string) : chars (s1 +:+ s2) = chars s1 ++ chars s2.
Proof. induction s1 as [|c s1 IH]; simpl; [done|by rewrite IH]. Qed.

Lemma chars_inj (s1 s2 : string) : chars s1 = chars s2 → s1 = s2.
Proof.
  revert s2. induction s1 as [|c s1 IH]; intros [|c' s2]; simpl; try done.
  intros [= -> H]. f_equal. auto.
Qed.

(** The decimal text of a natural number has no dash. *)
Lemma pretty_N_go_no_dash (x : N) (s : string) :
  Forall (λ c, c ≠ "-"%char) (chars s) →
  Forall (λ c, c ≠ "-"%char) (chars (pretty_N_go x s)).
Proof.
  revert s. induction (N.lt_wf_0 x) as [x _ IH]; intros s Hs.
  assert (x = 0 ∨ 0 < x)%N as [->|Hx] by lia.
  - by rewrite pretty_N_go_0.
  - rewrite pretty_N_go_step by done. apply IH.
    { by apply N.div_lt. }
    simpl. constructor; [|done].
    unfold pretty_N_char. by repeat case_match.
Qed.

Lemma pretty_N_no_dash (x : N) : Forall (λ c, c ≠ "-"%char) (chars (pretty x)).
Proof.
  unfold pretty, pretty_N. case_decide.
  - simpl. by repeat constructor.
  - apply pretty_N_go_no_dash. constructor.
Qed.

(** Splitting at the first dash is unambiguous. *)
Lemma split_at_dash (a a' b b' : list ascii) :
  Forall (λ c, c ≠ "-"%char) a → Forall (λ c, c ≠ "-"%char) a' →
  a ++ "-"%char :: b = a' ++ "-"%char :: b' → a = a' ∧ b = b'.
Proof.
  intros Ha. revert a'. induction Ha as [|c a Hc Ha IH]; intros a' Ha' Heq.
  - destruct Ha' as [|c' a' Hc' Ha']; simpl in Heq.
    + by injection Heq.
    + injection Heq as <- _. done.
  - destruct Ha' as [|c' a' Hc' Ha']; simpl in Heq.
    + injection Heq as -> _. done.
    + injection Heq as -> Heq. destruct (IH _ Ha' Heq) as [-> ->]. done.
Qed.

(** The key of a pair of ids determines the pair, for ids as the [SERIAL]
    column produces them. *)
Lemma pair_key_inj (a b a' b' : Z) :
  (0 ≤ a)%Z → (0 ≤ a')%Z →
  pair_key a b = pair_key a' b' → a = a' ∧ b = b'.
Proof.
  intros Ha Ha' Hkey. unfold pair_key, JS.Number_toString in Hkey.
  apply (f_equal chars) in Hkey. rewrite !chars_app in Hkey. simpl in Hkey.
  assert (∀ z : Z, (0 ≤ z)%Z → Forall (λ c, c ≠ "-"%char) (chars (pretty z)))
    as Hnodash.
  { intros [|p|p] Hz; [by repeat constructor|apply (pretty_N_no_dash (Npos p))|lia]. }
  apply split_at_dash in Hkey as [Hfst Hsnd]; auto.
  apply chars_inj in Hfst, Hsnd.
  split; by apply (inj pretty).
Qed.

Lemma set_pair_lookup (pairCounts : gmap string Z) (row : PairCountRow)
    (key : string) :
  set_pair pairCounts row !! key
  = if decide (key = pair_key (p_engine1_id row) (p_engine2_id row)
               ∨ key = pair_key (p_engine2_id row) (p_engine1_id row))
    then Some (game_count row) else pairCounts !! key.
Proof.
  unfold set_pair. rewrite !lookup_insert.
  destruct (decide (pair_key (p_engine2_id row) (p_engine1_id row) = key));
    destruct (decide (pair_key (p_engine1_id row) (p_engine2_id row) = key));
    destruct (decide (key = _ ∨ key = _)) as [Hkey|Hkey];
    try done; exfalso; intuition congruence.
Qed.

(** Whatever the rows, the two keys of a pair hold the same value. *)
Lemma pairCounts_symmetric (rows : list PairCountRow) (i j : Z) :
  Forall (λ row, (0 ≤ p_engine1_id row)%Z ∧ (0 ≤ p_engine2_id row)%Z) rows →
  (0 ≤ i)%Z → (0 ≤ j)%Z →
  pairCounts_of_rows rows !! pair_key i j
  = pairCounts_of_rows rows !! pair_key j i.
Proof.
  intros Hrows Hi Hj. unfold pairCounts_of_rows.
  induction rows as [|row rows IH] using rev_ind; [done|].
  apply Forall_app in Hrows as [Hrows [[H1 H2] _]%Forall_cons].
  rewrite foldl_app. simpl. rewrite !set_pair_lookup, IH by done.
  destruct (decide (pair_key i j = _ ∨ pair_key i j = _)) as [Hij|Hij];
    destruct (decide (pair_key j i = _ ∨ pair_key j i = _)) as [Hji|Hji];
    try done; exfalso.
  - apply Hji. destruct Hij as [Hij|Hij];
      apply pair_key_inj in Hij as [-> ->]; auto.
  - apply Hij. destruct Hji as [Hji|Hji];
      apply pair_key_inj in Hji as [-> ->]; auto.
Qed.

(** A row whose pair occurs in no later row, in either order, is returned
    under both keys. *)
Lemma pairCounts_single_order (before after : list PairCountRow)
    (row : PairCountRow) :
  Forall (λ row', (0 ≤ p_engine1_id row')%Z ∧ (0 ≤ p_engine2_id row')%Z)
    (row :: after) →
  Forall (λ row',
            (p_engine1_id row', p_engine2_id row')
              ≠ (p_engine1_id row, p_engine2_id row)
            ∧ (p_engine1_id row', p_engine2_id row')
              ≠ (p_engine2_id row, p_engine1_id row)) after →
  let pairCounts := pairCounts_of_rows (before ++ row :: after) in
  pairCounts !! pair_key (p_engine1_id row) (p_engine2_id row)
  = Some (game_count row)
  ∧ pairCounts !! pair_key (p_engine2_id row) (p_engine1_id row)
    = Some (game_count row).
Proof.
  intros [[H1 H2] Hpos]%Forall_cons Hafter pairCounts.
  unfold pairCounts, pairCounts_of_rows. rewrite foldl_app. simpl.
  generalize (foldl set_pair ∅ before). intros m.
  induction after as [|row' after IH] using rev_ind.
  - simpl. rewrite !set_pair_lookup. split; case_decide; naive_solver.
  - apply Forall_app in Hpos as [Hpos [[H1' H2'] _]%Forall_cons].
    apply Forall_app in Hafter as [Hafter [[Hne1 Hne2] _]%Forall_cons].
    rewrite foldl_app. simpl. rewrite !set_pair_lookup.
    destruct (IH Hpos Hafter) as [IH1 IH2].
    split; case_decide as Hkey; try done; exfalso;
      destruct Hkey as [Hkey|Hkey];
      apply pair_key_inj in Hkey as [? ?]; auto; congruence.
Qed.


(** C6, at a [games] table with two games of engine 1 against engine 2 and
    one game of engine 2 against engine 1.  The query returns one row per
    ordered pair, [(1, 2, 2)] and [(2, 1, 1)]; the second row overwrites
    both keys of the first, so the map yields 1 for ["1-2"] and ["2-1"],
    which is neither the stored count 2 of [(1, 2)] nor the 3 games the two
    engines have played.  With the rows in the other order the map yields
    2 for both keys. *)
Theorem getPairGameCounts_both_orders :
  let game (engine1Id engine2Id : Z) :=
    mkGameResult engine1Id engine2Id win None None None None None None
      (Some white) (Some black) in
  let db0 :=
    mkDb [mkEngineRow 1 "Engine1" None 1500 0 0 0 0;
          mkEngineRow 2 "Engine2" None 1500 0 0 0 0] 2 [] 0 in
  let db :=
    (for_of [game 1 2; game 1 2; game 2 1]%Z
       (λ gameResult, recordGameResult gameResult false) db0).2 in
  let rows := [mkPairCountRow 1 2 2; mkPairCountRow 2 1 1] in
  SELECT_pair_counts db = (inr rows, db)
  ∧ getPairGameCounts db = (inr (pairCounts_of_rows rows), db)
  ∧ pairCounts_of_rows rows !! "1-2" = Some 1%Z
  ∧ pairCounts_of_rows rows !! "2-1" = Some 1%Z
  ∧ pairCounts_of_rows (reverse rows) !! "1-2" = Some 2%Z
  ∧ pairCounts_of_rows (reverse rows) !! "2-1" = Some 2%Z
  ∧ length (filter (λ g, g_engine1_id g = 1%Z ∧ g_engine2_id g = 2%Z
                         ∨ g_engine1_id g = 2%Z ∧ g_engine2_id g = 1%Z)
              (games db)) = 3.
Proof.
  intros game db0 db rows.
  assert (SELECT_pair_counts db = (inr rows, db)) as Hrows
    by (vm_compute; reflexivity).
  split; [exact Hrows|]. split.
  - unfold getPairGameCounts. rewrite bind_unfold, Hrows. reflexivity.
  - repeat split; vm_compute; reflexivity.
Qed.

End pair_counts.

(** * Further properties *)

(** ** More on the Elo update *)

Section elo_more.

Local Open Scope R_scope.











End elo_more.

(** ** Recording games and updating ratings *)

Section record_and_update.

Import Database.

Local Open Scope Z_scope.


(** The new ratings [updateRatings] computes from the two it has read. *)
#[local] Abbreviation newRatings rating1 rating2 isDraw :=
  (JS.round (IZR rating1 + 32 * ((if isDraw : bool then 0.5 else 1)
       - 1 / (1 + JS.pow 10 ((IZR rating2 - IZR rating1) / 400))))%R,
   JS.round (IZR rating2 + 32 * ((if isDraw : bool then 0.5 else 0)
       - 1 / (1 + JS.pow 10 ((IZR rating1 - IZR rating2) / 400))))%R).

(** The table after the updates of [updateRatings]. *)
#[local] Abbreviation where_id id := (λ e : EngineRow, bool_decide (e_id e = id)).

#[local] Abbreviation updated cond set es :=
  ((λ e : EngineRow, if cond e : bool then set e else e) <$> es).

#[local] Abbreviation updated_engines engine1Id engine2Id isDraw
    newRating1 newRating2 es :=
  (let es2 :=
     updated (where_id engine2Id) (set_rating_played newRating2)
       (updated (where_id engine1Id) (set_rating_played newRating1) es) in
   if isDraw : bool then
     updated (λ e, bool_decide (e_id e = engine1Id)
                   || bool_decide (e_id e = engine2Id)) incr_draws es2
   else
     updated (where_id engine2Id) incr_losses
       (updated (where_id engine1Id) incr_wins es2)).

(** [updateRatings] in one step: it throws when a rating query returns no
    row, and otherwise rewrites the rows of the two engines. *)
Lemma updateRatings_unfold (engine1Id engine2Id : Z) (isDraw : bool) (db : Db) :
  updateRatings engine1Id engine2Id isDraw db
  = match (SELECT_rating engine1Id db).1, (SELECT_rating engine2Id db).1 with
    | inr (rating1 :: _), inr (rating2 :: _) =>
        (inr tt,
         set_engines
           (updated_engines engine1Id engine2Id isDraw
              (newRatings rating1 rating2 isDraw).1
              (newRatings rating1 rating2 isDraw).2 (engines db)) db)
    | _, _ =>
        (inl (JS.mkError "TypeError"
                "Cannot read properties of undefined (reading 'rating')"), db)
    end.
Proof.
  unfold updateRatings, mbind, M_bind, SELECT_rating. cbn [fst snd].
  destruct (e_rating <$> filter (λ e, e_id e = engine1Id) (engines db))
    as [|rating1 rows1]; [reflexivity|].
  destruct (e_rating <$> filter (λ e, e_id e = engine2Id) (engines db))
    as [|rating2 rows2]; [reflexivity|].
  destruct isDraw; reflexivity.
Qed.

Lemma SELECT_rating_fst_missing (id : Z) (db : Db) :
  id ∉ e_id <$> engines db → (SELECT_rating id db).1 = inr [].
Proof. intros Hid. by rewrite SELECT_rating_missing. Qed.

(** X4. [updateRatings] does not check that the engines exist: when either
    id has no row, it fails with a [TypeError] on reading [rows[0].rating],
    before any update, and the database is as it was. *)
Theorem updateRatings_engine_not_found (engine1Id engine2Id : Z)
    (isDraw : bool) (db : Db) :
  engine1Id ∉ e_id <$> engines db ∨ engine2Id ∉ e_id <$> engines db →
  updateRatings engine1Id engine2Id isDraw db
  = (inl (JS.mkError "TypeError"
            "Cannot read properties of undefined (reading 'rating')"), db).
Proof.
  intros Hmissing. rewrite updateRatings_unfold.
  destruct Hmissing as [H1|H2].
  - by rewrite (SELECT_rating_fst_missing _ _ H1).
  - rewrite (SELECT_rating_fst_missing _ _ H2).
    by destruct (SELECT_rating engine1Id db).1 as [|[|]].
Qed.

Lemma updateRatings_engine_not_found_witness :
  let db := mkDb [mkEngineRow 1 "Engine1" None 1500 0 0 0 0] 1 [] 0 in
  updateRatings 1 2 false db
  = (inl (JS.mkError "TypeError"
            "Cannot read properties of undefined (reading 'rating')"), db).
Proof.
  intros db. apply (updateRatings_engine_not_found 1 2 false db).
  right. simpl. rewrite list_elem_of_singleton. discriminate.
Defined.

(** The row [recordGameResult] inserts for a game, given the two ratings it
    has read and the id the sequence supplies. *)
#[local] Abbreviation game_row gameResult rating1Before rating2Before id :=
  (mkGameRow id (engine1Id gameResult) (engine2Id gameResult)
     (match result gameResult with
      | draw => None
      | win => Some (engine1Id gameResult)
      | loss | error => Some (engine2Id gameResult)
      end)
     (bool_decide (result gameResult = draw))
     rating1Before rating2Before (moves gameResult) (duration gameResult)
     (errorText gameResult) (finalStatus gameResult)
     (startingPosition gameResult) (matchSetName gameResult)
     (engine1Color gameResult) (engine2Color gameResult)).

(** [recordGameResult] in one step. *)
Lemma recordGameResult_unfold (gameResult : GameResult)
    (shouldUpdateRatings : bool) (db : Db) :
  recordGameResult gameResult shouldUpdateRatings db
  = match (SELECT_rating (engine1Id gameResult) db).1,
          (SELECT_rating (engine2Id gameResult) db).1 with
    | inr (rating1Before :: _), inr (rating2Before :: _) =>
        let db' :=
          mkDb (engines db) (engines_id_seq db)
            (games db ++ [game_row gameResult rating1Before rating2Before
                            (games_id_seq db + 1)])
            (games_id_seq db + 1) in
        if shouldUpdateRatings && negb (bool_decide (result gameResult = error))
        then updateRatings (engine1Id gameResult) (engine2Id gameResult)
               (bool_decide (result gameResult = draw)) db'
        else (inr tt, db')
    | _, _ => (inl (JS.new_Error "One or both engines not found"), db)
    end.
Proof.
  unfold recordGameResult, mbind, M_bind, SELECT_rating. cbn [fst snd].
  destruct (e_rating <$> filter (λ e, e_id e = engine1Id gameResult) (engines db))
    as [|rating1 rows1];
    destruct (e_rating <$> filter (λ e, e_id e = engine2Id gameResult) (engines db))
    as [|rating2 rows2]; try reflexivity.
  destruct (result gameResult), shouldUpdateRatings; reflexivity.
Qed.



(** X6. When ratings are updated, a ['loss'] is treated like a ['win']:
    [updateRatings] is called with [engine1Id] first in both cases, so the
    outcome and the [engines] table after recording a loss of engine 1 are
    those after recording its win. *)
Theorem recordGameResult_loss_as_win (gameResult : GameResult)
    (shouldUpdateRatings : bool) (db : Db) :
  result gameResult = loss →
  let won :=
    mkGameResult (engine1Id gameResult) (engine2Id gameResult) win
      (moves gameResult) (duration gameResult) (errorText gameResult)
      (finalStatus gameResult) (startingPosition gameResult)
      (matchSetName gameResult) (engine1Color gameResult)
      (engine2Color gameResult) in
  (recordGameResult gameResult shouldUpdateRatings db).1
  = (recordGameResult won shouldUpdateRatings db).1
  ∧ engines (recordGameResult gameResult shouldUpdateRatings db).2
    = engines (recordGameResult won shouldUpdateRatings db).2.
Proof.
  intros Hloss won. rewrite !recordGameResult_unfold. subst won. cbn [engine1Id engine2Id result].
  rewrite Hloss.
  destruct (SELECT_rating (engine1Id gameResult) db).1 as [|[|rating1 ?]];
    try done.
  destruct (SELECT_rating (engine2Id gameResult) db).1 as [|[|rating2 ?]];
    try done.
  cbn zeta. destruct shouldUpdateRatings; [|done]. cbn [andb negb bool_decide].
  rewrite !bool_decide_eq_false_2 by done. cbn [andb negb].
  rewrite !updateRatings_unfold. unfold SELECT_rating. cbn [fst snd engines].
  destruct (e_rating <$> filter _ (engines db)) as [|r1 ?]; [done|].
  destruct (e_rating <$> filter _ (engines db)) as [|r2 ?]; done.
Qed.

Lemma recordGameResult_loss_as_win_witness :
  let db := mkDb [mkEngineRow 1 "Engine1" None 1500 0 0 0 0;
                  mkEngineRow 2 "Engine2" None 1400 0 0 0 0] 2 [] 0 in
  let lost :=
    mkGameResult 1 2 loss None None None None None None
      (Some white) (Some black) in
  let won :=
    mkGameResult 1 2 win None None None None None None
      (Some white) (Some black) in
  (recordGameResult lost true db).1 = (recordGameResult won true db).1
  ∧ engines (recordGameResult lost true db).2
    = engines (recordGameResult won true db).2.
Proof.
  intros db lost won.
  apply (recordGameResult_loss_as_win lost true db). reflexivity.
Defined.

(** The counters of a row agree: every game played is a win, a loss or a
    draw. *)
#[local] Abbreviation counters_agree :=
  (λ e : EngineRow, e_games_played e = e_wins e + e_losses e + e_draws e).

Lemma updated_engines_counters (engine1Id engine2Id : Z) (isDraw : bool)
    (newRating1 newRating2 : Z) (es : list EngineRow) :
  engine1Id ≠ engine2Id →
  Forall counters_agree es →
  Forall counters_agree
    (updated_engines engine1Id engine2Id isDraw newRating1 newRating2 es).
Proof.
  intros Hne Hes. destruct isDraw; cbn zeta.
  - rewrite !Forall_fmap. eapply Forall_impl; [exact Hes|].
    intros [id name description rating played w l d] He. cbn in *.
    repeat (case_bool_decide; cbn in * ); subst; try done; lia.
  - rewrite !Forall_fmap. eapply Forall_impl; [exact Hes|].
    intros [id name description rating played w l d] He. cbn in *.
    repeat (case_bool_decide; cbn in * ); subst; try done; lia.
Qed.

(** X7. A rating update between two different engines keeps the counters
    of every row in agreement: [games_played = wins + losses + draws] holds
    after [updateRatings], and after [recordGameResult], if it held
    before. *)
Theorem updateRatings_keeps_counters (engine1Id engine2Id : Z) (db : Db) :
  engine1Id ≠ engine2Id →
  Forall counters_agree (engines db) →
  (∀ isDraw,
     Forall counters_agree (engines (updateRatings engine1Id engine2Id isDraw db).2))
  ∧ (∀ gameResult shouldUpdateRatings,
       Database.engine1Id gameResult = engine1Id →
       Database.engine2Id gameResult = engine2Id →
       Forall counters_agree
         (engines (recordGameResult gameResult shouldUpdateRatings db).2)).
Proof.
  intros Hne Hdb.
  assert (∀ isDraw db', engines db' = engines db →
            Forall counters_agree
              (engines (updateRatings engine1Id engine2Id isDraw db').2)) as Hupd.
  { intros isDraw db' Heq. rewrite updateRatings_unfold.
    destruct (SELECT_rating engine1Id db').1 as [|[|rating1 ?]];
      cbn [snd]; rewrite ?Heq; try done.
    destruct (SELECT_rating engine2Id db').1 as [|[|rating2 ?]];
      cbn [snd]; rewrite ?Heq; try done.
    cbn [set_engines engines]. rewrite ?Heq.
    by apply updated_engines_counters. }
  split; [intros isDraw; by apply Hupd|].
  intros gameResult shouldUpdateRatings <- <-.
  rewrite recordGameResult_unfold.
  destruct (SELECT_rating (Database.engine1Id gameResult) db).1
    as [|[|rating1 ?]]; try done.
  destruct (SELECT_rating (Database.engine2Id gameResult) db).1
    as [|[|rating2 ?]]; try done.
  cbn zeta.
  destruct (shouldUpdateRatings && negb (bool_decide (result gameResult = error)));
    [by apply Hupd|done].
Qed.

Lemma updateRatings_keeps_counters_witness :
  let db := mkDb [mkEngineRow 1 "Engine1" None 1500 3 2 1 0;
                  mkEngineRow 2 "Engine2" None 1400 3 1 2 0] 2 [] 0 in
  (∀ isDraw, Forall counters_agree (engines (updateRatings 1 2 isDraw db).2))
  ∧ (∀ gameResult shouldUpdateRatings,
       Database.engine1Id gameResult = 1 →
       Database.engine2Id gameResult = 2 →
       Forall counters_agree
         (engines (recordGameResult gameResult shouldUpdateRatings db).2)).
Proof.
  intros db. apply (updateRatings_keeps_counters 1 2 db); [discriminate|].
  repeat constructor.
Defined.

(** The sum of all ratings of the table. *)
#[local] Abbreviation total_rating es := (foldr Z.add 0 (e_rating <$> es)).








End record_and_update.

(** ** Rankings and pair counts *)

Section queries.

Import Database.

#[local] Instance rating_DESC_trans : Transitive rating_DESC.
Proof. intros x y z. unfold rating_DESC. lia. Qed.

#[local] Instance rating_DESC_tot : Total rating_DESC.
Proof. intros x y. unfold rating_DESC. lia. Qed.

(** X9. [getRankings] returns the highest rated engines: the rows it selects
    and the rows it leaves out make up the table, it selects [limit] of them
    (10 when no limit is given) or all if there are fewer, and no row left
    out is rated higher than a selected one. *)
Theorem getRankings_highest_rated (limit : option nat) (detailed : bool)
    (db : Db) :
  ∃ selected rest,
    getRankings limit detailed db
    = (inr (select_fields detailed <$> selected), db)
    ∧ selected ++ rest ≡ₚ engines db
    ∧ length selected = default 10 limit `min` length (engines db)
    ∧ ∀ e e', e ∈ selected → e' ∈ rest → (e_rating e' ≤ e_rating e)%Z.
Proof.
  exists (take (default 10 limit) (merge_sort rating_DESC (engines db))),
    (drop (default 10 limit) (merge_sort rating_DESC (engines db))).
  repeat split.
  - by rewrite take_drop, merge_sort_Permutation.
  - rewrite length_take.
    by rewrite (Permutation_length (merge_sort_Permutation _ _)).
  - intros e e' He He'.
    eapply (StronglySorted_app_1_elem_of rating_DESC); [|exact He|exact He'].
    rewrite take_drop. apply StronglySorted_merge_sort; apply _.
Qed.

(** The count of the group of an ordered pair, if the pair has a group. *)
#[local] Abbreviation pair_is i j :=
  (λ row : PairCountRow, p_engine1_id row = i ∧ p_engine2_id row = j).

#[local] Abbreviation group_count i j groups :=
  (game_count <$> head (filter (pair_is i j) groups)).

#[local] Abbreviation game_is i j :=
  (λ g : GameRow, g_engine1_id g = i ∧ g_engine2_id g = j).

#[local] Ltac pair_contra :=
  exfalso;
  repeat match goal with H : _ ∧ _ |- _ => destruct H end;
  subst;
  match goal with H : ¬ _ |- _ => apply H; split; congruence end.

Lemma add_to_group_count (a b i j : Z) (groups : list PairCountRow) :
  group_count i j (add_to_group a b groups)
  = if decide (i = a ∧ j = b)
    then Some (default 0 (group_count a b groups) + 1)%Z
    else group_count i j groups.
Proof.
  induction groups as [|row groups IH]; simpl.
  - rewrite filter_cons, filter_nil. simpl.
    destruct (decide (a = i ∧ b = j)), (decide (i = a ∧ j = b));
      simpl; try reflexivity; pair_contra.
  - destruct (bool_decide_reflect (p_engine1_id row = a ∧ p_engine2_id row = b))
      as [Hrow|Hrow]; rewrite !filter_cons; simpl.
    + destruct (decide (a = i ∧ b = j)) as [Hij|Hij],
        (decide (i = a ∧ j = b)) as [Hji|Hji];
        try pair_contra.
      * rewrite !decide_True by (split; intuition congruence). done.
      * rewrite decide_False by (intros [? ?]; apply Hij; split; congruence).
        done.
    + destruct (decide (p_engine1_id row = i ∧ p_engine2_id row = j))
        as [Hi|Hi], (decide (i = a ∧ j = b)) as [Hji|Hji];
        try pair_contra.
      * done.
      * rewrite IH. rewrite decide_False by done. done.
      * exact IH.
Qed.

#[local] Abbreviation group_keys groups :=
  ((λ row : PairCountRow, (p_engine1_id row, p_engine2_id row)) <$> groups).

Lemma add_to_group_keys (a b : Z) (groups : list PairCountRow) :
  ((a, b) ∈ group_keys groups
   → group_keys (add_to_group a b groups) = group_keys groups)
  ∧ ((a, b) ∉ group_keys groups
     → group_keys (add_to_group a b groups) = group_keys groups ++ [(a, b)]).
Proof.
  induction groups as [|row groups [IH1 IH2]].
  - split; [by intros ?%elem_of_nil|done].
  - cbn [add_to_group].
    destruct (bool_decide_reflect (p_engine1_id row = a ∧ p_engine2_id row = b))
      as [[Ha Hb]|Hrow]; rewrite !fmap_cons; cbn [p_engine1_id p_engine2_id].
    + split; [by rewrite Ha, Hb|].
      intros []. rewrite Ha, Hb. apply list_elem_of_here.
    + split.
      * intros [Heq|Hin]%elem_of_cons; [|by rewrite IH1].
        destruct Hrow. by inversion Heq.
      * intros [_ Hnin]%not_elem_of_cons. by rewrite IH2.
Qed.

(** The rows of the query, for a table of games. *)
#[local] Abbreviation pair_count_rows gs :=
  (foldl (λ groups g, add_to_group (g_engine1_id g) (g_engine2_id g) groups)
     [] gs).

Lemma pair_count_rows_count (i j : Z) (gs : list GameRow) :
  group_count i j (pair_count_rows gs)
  = if decide (filter (game_is i j) gs = []) then None
    else Some (Z.of_nat (length (filter (game_is i j) gs))).
Proof.
  induction gs as [|g gs IH] using rev_ind; [done|].
  rewrite foldl_app. cbn [foldl].
  rewrite add_to_group_count, filter_app, filter_cons, filter_nil.
  destruct (decide (i = g_engine1_id g ∧ j = g_engine2_id g)) as [[-> ->]|Hne];
    rewrite IH.
  - destruct (decide (g_engine1_id g = g_engine1_id g
                      ∧ g_engine2_id g = g_engine2_id g)) as [_|[]]; [|done].
    destruct (decide (_ ++ [g] = [])) as [H|_];
      [by apply app_eq_nil in H as [_ ?]|].
    rewrite length_app.
    destruct (decide (filter _ gs = [])) as [->|_]; simpl; f_equal; lia.
  - destruct (decide (g_engine1_id g = i ∧ g_engine2_id g = j)) as [[? ?]|_];
      [destruct Hne; by split|].
    by rewrite app_nil_r.
Qed.

Lemma pair_count_rows_NoDup (gs : list GameRow) :
  NoDup (group_keys (pair_count_rows gs)).
Proof.
  induction gs as [|g gs IH] using rev_ind; [apply NoDup_nil_2|].
  rewrite foldl_app. cbn [foldl].
  destruct (add_to_group_keys (g_engine1_id g) (g_engine2_id g)
              (pair_count_rows gs)) as [Hin Hnin].
  destruct (decide ((g_engine1_id g, g_engine2_id g)
                    ∈ group_keys (pair_count_rows gs))) as [H|H].
  - by rewrite Hin.
  - rewrite Hnin by done. apply NoDup_app.
    repeat split; [done| |apply NoDup_singleton].
    by intros x Hx ->%list_elem_of_singleton.
Qed.

Lemma pair_count_rows_nonneg (gs : list GameRow) :
  Forall (λ g, (0 ≤ g_engine1_id g)%Z ∧ (0 ≤ g_engine2_id g)%Z) gs →
  Forall (λ row, (0 ≤ p_engine1_id row)%Z ∧ (0 ≤ p_engine2_id row)%Z)
    (pair_count_rows gs).
Proof.
  induction gs as [|g gs IH] using rev_ind; [intros _; constructor|].
  intros [Hgs [Hg _]%Forall_cons]%Forall_app.
  rewrite foldl_app. simpl. specialize (IH Hgs).
  generalize dependent (pair_count_rows gs). intros groups Hgroups.
  induction Hgroups as [|row groups Hrow Hgroups IHg]; simpl.
  - constructor; [exact Hg|constructor].
  - destruct (bool_decide _); constructor; assumption.
Qed.

Lemma group_count_None (i j : Z) (rows : list PairCountRow) :
  group_count i j rows = None → Forall (λ row, ¬ pair_is i j row) rows.
Proof.
  induction rows as [|row rows IH]; [constructor|].
  rewrite filter_cons.
  destruct (decide (pair_is i j row)); [discriminate|]. by constructor; auto.
Qed.

Lemma group_count_Some (i j c : Z) (rows : list PairCountRow) :
  NoDup (group_keys rows) → group_count i j rows = Some c →
  ∃ before row after,
    rows = before ++ row :: after
    ∧ p_engine1_id row = i ∧ p_engine2_id row = j ∧ game_count row = c
    ∧ Forall (λ row', ¬ pair_is i j row') after.
Proof.
  intros Hnd (row & Hrow & ->)%fmap_Some.
  apply head_Some_elem_of, list_elem_of_filter in Hrow as [[Hi Hj] Hin].
  apply list_elem_of_split in Hin as (before & after & ->).
  exists before, row, after. repeat split; try done.
  rewrite fmap_app, fmap_cons in Hnd.
  apply NoDup_app in Hnd as (_ & _ & [Hnin _]%NoDup_cons).
  apply Forall_forall. intros row' Hrow' [Hi' Hj']. apply Hnin.
  apply list_elem_of_fmap. exists row'. split; [congruence|done].
Qed.

Lemma pairCounts_no_row (rows : list PairCountRow) (i j : Z) :
  Forall (λ row, (0 ≤ p_engine1_id row)%Z ∧ (0 ≤ p_engine2_id row)%Z) rows →
  (0 ≤ i)%Z →
  Forall (λ row, ¬ pair_is i j row) rows →
  Forall (λ row, ¬ pair_is j i row) rows →
  pairCounts_of_rows rows !! pair_key i j = None.
Proof.
  intros Hrows Hi Hij Hji. unfold pairCounts_of_rows.
  induction rows as [|row rows IH] using rev_ind; [done|].
  apply Forall_app in Hrows as [Hrows [[H1 H2] _]%Forall_cons].
  apply Forall_app in Hij as [Hij [Hrow _]%Forall_cons].
  apply Forall_app in Hji as [Hji [Hrow' _]%Forall_cons].
  rewrite foldl_app. cbn [foldl]. rewrite set_pair_lookup, IH by done.
  destruct (decide (_ ∨ _)) as [[Hkey|Hkey]|_]; [exfalso..|done];
    apply pair_key_inj in Hkey as [-> ->]; auto.
Qed.

(** X10. For two engines whose games were all stored in one order (engine
    [i] as engine 1), or an engine paired with itself, [getPairGameCounts]
    holds the number of their games under both keys; a pair that never played
    has no key. *)
Theorem getPairGameCounts_one_order (db : Db) (i j : Z) :
  Forall (λ g, (0 ≤ g_engine1_id g)%Z ∧ (0 ≤ g_engine2_id g)%Z) (games db) →
  (0 ≤ i)%Z → (0 ≤ j)%Z →
  i = j ∨ filter (game_is j i) (games db) = [] →
  ∃ pairCounts,
    getPairGameCounts db = (inr pairCounts, db)
    ∧ let n := length (filter (game_is i j) (games db)) in
      let count := if decide (n = 0) then None else Some (Z.of_nat n) in
      pairCounts !! pair_key i j = count
      ∧ pairCounts !! pair_key j i = count.
Proof.
  intros Hgames Hi Hj Horder.
  exists (pairCounts_of_rows (pair_count_rows (games db))).
  split; [reflexivity|]. intros n count.
  pose proof (pair_count_rows_nonneg _ Hgames) as Hrows.
  pose proof (pair_count_rows_NoDup (games db)) as Hnd.
  pose proof (pair_count_rows_count i j (games db)) as Hij.
  assert (i = j ∨ Forall (λ row, ¬ pair_is j i row)
                     (pair_count_rows (games db))) as Hji.
  { destruct Horder as [->|Hnone]; [by left|right].
    apply group_count_None. rewrite pair_count_rows_count.
    by rewrite decide_True. }
  generalize dependent (pair_count_rows (games db)). intros rows Hrows Hnd Hij.
  intros Hji. subst count n.
  destruct (decide (filter (game_is i j) (games db) = [])) as [Hnil|Hcons].
  - rewrite Hnil. cbn [length]. rewrite decide_True by done.
    apply group_count_None in Hij.
    assert (Forall (λ row, ¬ pair_is j i row) rows) as Hji'
      by (destruct Hji as [->|Hji]; done).
    split; by apply pairCounts_no_row.
  - rewrite decide_False by (by intros ?%nil_length_inv).
    apply group_count_Some in Hij
      as (before & row & after & -> & <- & <- & <- & Hafter); [|done].
    apply Forall_app in Hrows as [_ Hrows].
    apply pairCounts_single_order; [done|].
    assert (Forall (λ row', ¬ pair_is (p_engine2_id row) (p_engine1_id row) row')
              after ∨ p_engine1_id row = p_engine2_id row) as Hafter'.
    { destruct Hji as [Heq|Hji]; [by right|left].
      by apply Forall_app in Hji as [_ [_ Hji]%Forall_cons]. }
    apply Forall_forall. intros row' Hrow'.
    rewrite Forall_forall in Hafter. specialize (Hafter row' Hrow').
    split; [intros [= ? ?]; by apply Hafter|].
    intros [= H1 H2]. destruct Hafter' as [Hafter'|Heq].
    + rewrite Forall_forall in Hafter'. by apply (Hafter' row' Hrow').
    + apply Hafter. split; congruence.
Qed.

Lemma getPairGameCounts_one_order_witness :
  let game i j :=
    mkGameRow 0 i j None false 1500 1500 None None None None None None None None in
  let db := mkDb [] 0 [game 1 2; game 3 1; game 1 2]%Z 3 in
  ∃ pairCounts,
    getPairGameCounts db = (inr pairCounts, db)
    ∧ pairCounts !! "1-2" = Some 2%Z ∧ pairCounts !! "2-1" = Some 2%Z.
Proof.
  intros game db.
  apply (getPairGameCounts_one_order db 1 2); [|lia|lia|by right].
  repeat constructor; discriminate.
Defined.

(** X11. Whatever the table of games holds, [getPairGameCounts] answers the
    same for the two orders of a pair of engines. *)
Theorem getPairGameCounts_symmetric (db : Db) (i j : Z) :
  Forall (λ g, (0 ≤ g_engine1_id g)%Z ∧ (0 ≤ g_engine2_id g)%Z) (games db) →
  (0 ≤ i)%Z → (0 ≤ j)%Z →
  ∃ pairCounts,
    getPairGameCounts db = (inr pairCounts, db)
    ∧ pairCounts !! pair_key i j = pairCounts !! pair_key j i.
Proof.
  intros Hgames Hi Hj.
  exists (pairCounts_of_rows (pair_count_rows (games db))).
  split; [reflexivity|].
  apply pairCounts_symmetric; [|done..]. by apply pair_count_rows_nonneg.
Qed.

Lemma getPairGameCounts_symmetric_witness :
  let game i j :=
    mkGameRow 0 i j None false 1500 1500 None None None None None None None None in
  let db := mkDb [] 0 [game 1 2; game 2 1; game 1 2]%Z 3 in
  ∃ pairCounts,
    getPairGameCounts db = (inr pairCounts, db)
    ∧ pairCounts !! pair_key 1 2 = pairCounts !! pair_key 2 1.
Proof.
  intros game db. apply (getPairGameCounts_symmetric db 1 2); [|lia|lia].
  repeat constructor; discriminate.
Defined.

End queries.

(** ** The schema constraints in every reachable state *)

Section schema.

Import Database Index System Schema.

Local Open Scope Z_scope.

(** The constraints that the code keeps without help of the database: the
    model of [INSERT INTO games] never rejects a row. *)
#[local] Abbreviation consistent db :=
  (primary_keys db ∧ foreign_keys db ∧ Forall winner_recorded (games db)).

(** Where a computation started in [db0] may have brought the database;
    with [fixed], no engine was added. *)
#[local] Abbreviation after db0 fixed db :=
  ((consistent db0 → consistent db)
   ∧ extends db0 db
   ∧ (fixed = true →
      key <$> engines db = key <$> engines db0
      ∧ engines_id_seq db = engines_id_seq db0)).

Lemma ids_of_keys (es : list EngineRow) : e_id <$> es = (key <$> es).*1.
Proof. by rewrite <- list_fmap_compose. Qed.

Lemma after_refl (db0 : Db) (fixed : bool) : after db0 fixed db0.
Proof. split; [done|]. split; [by split|done]. Qed.

Lemma after_set_engines (db0 : Db) (fixed : bool) (es : list EngineRow)
    (db : Db) :
  key <$> es = key <$> engines db →
  after db0 fixed db → after db0 fixed (set_engines es db).
Proof.
  intros Hkeys (Hcons & [Hes Hgs] & Hfixed).
  assert (e_id <$> es = e_id <$> engines db) as Hids
    by (by rewrite !ids_of_keys, Hkeys).
  split; [|split].
  - intros ([He Hg] & Hfk & Hw)%Hcons.
    unfold primary_keys, foreign_keys. simpl. rewrite Hids. done.
  - unfold extends. simpl. rewrite Hkeys. done.
  - simpl. rewrite Hkeys. done.
Qed.

Lemma after_weaken (db0 : Db) (fixed : bool) (db : Db) :
  after db0 fixed db → after db0 false db.
Proof. intros (? & ? & ?). split; [done|]. split; [done|]. discriminate. Qed.

Lemma preserves_query {S A} (I : S → Prop) (m : M S A) :
  (∀ s, (m s).2 = s) → preserves I m.
Proof. intros Hm s Hs. by rewrite Hm. Qed.

Lemma preserves_UPDATE_engines_after (db0 : Db) (fixed : bool)
    (cond : EngineRow → bool) (set : EngineRow → EngineRow) :
  (∀ e, key (set e) = key e) →
  preserves (λ db, after db0 fixed db) (UPDATE_engines cond set).
Proof.
  intros Hset db Hdb. apply after_set_engines; [|done].
  rewrite <- list_fmap_compose. apply list_fmap_ext.
  intros i e _. simpl. by destruct (cond e).
Qed.

Lemma references_engines_app (ids ids' : list Z) (g : GameRow) :
  references_engines ids g → references_engines (ids ++ ids') g.
Proof.
  intros (H1 & H2 & Hw). repeat split; try (apply elem_of_app; by left).
  intros winner Hwinner. apply elem_of_app. left. by apply Hw.
Qed.

Lemma serial_skip (ids : list Z) (seq : Z) :
  serial ids seq → serial ids (seq + 1).
Proof.
  intros (Hnd & Hids & Hseq). repeat split; [done| |lia].
  eapply Forall_impl; [exact Hids|]. simpl. lia.
Qed.

Lemma serial_next (ids : list Z) (seq : Z) :
  serial ids seq → serial (ids ++ [seq + 1]) (seq + 1).
Proof.
  intros (Hnd & Hids & Hseq). repeat split; [| |lia].
  - apply NoDup_app. split; [done|]. split; [|apply NoDup_singleton].
    intros id Hid ->%list_elem_of_singleton.
    rewrite Forall_forall in Hids. specialize (Hids _ Hid). lia.
  - apply Forall_app. split.
    + eapply Forall_impl; [exact Hids|]. simpl. lia.
    + constructor; [lia|constructor].
Qed.

Lemma preserves_INSERT_engine_after (db0 : Db) (name : string) (rating : Z)
    (description : option string) :
  preserves (λ db, after db0 false db) (INSERT_engine name rating description).
Proof.
  intros db (Hcons & [Hes Hgs] & _). unfold INSERT_engine.
  destruct (bool_decide _); simpl.
  - split; [|done].
    intros ([He Hg] & Hfk & Hw)%Hcons.
    split; [split; [by apply serial_skip|done]|by split].
  - split; [|split; [|done]].
    + intros ([He Hg] & Hfk & Hw)%Hcons.
      unfold primary_keys, foreign_keys. simpl. rewrite fmap_app. simpl.
      split; [split; [by apply serial_next|done]|split; [|done]].
      eapply Forall_impl; [exact Hfk|]. intros g.
      apply references_engines_app.
    + split; simpl; [|done]. rewrite fmap_app.
      etrans; [exact Hes|]. by apply prefix_app_r.
Qed.

Lemma preserves_pool_after (db0 : Db) (fixed : bool) {A} (query : M Db A) :
  preserves (λ db, after db0 fixed db) query →
  preserves (λ app, after db0 fixed (db app)) (pool query).
Proof. apply (preserves_pool (λ db, after db0 fixed db)). Qed.

#[local] Ltac after_step :=
  match goal with
  | |- preserves _ (_ ≫= _) => apply preserves_bind; [|intros ?]
  | |- preserves _ (try_catch _ _) => apply preserves_try_catch; [|intros ?]
  | |- preserves _ (pool _) => apply preserves_pool_after
  | |- preserves _ (UPDATE_engines _ _) =>
      apply preserves_UPDATE_engines_after; intros []; reflexivity
  | |- preserves _ (UPDATE_description_rating _ _ _) =>
      apply preserves_UPDATE_engines_after; intros []; reflexivity
  | |- preserves _ (UPDATE_rating _ _) =>
      apply preserves_UPDATE_engines_after; intros []; reflexivity
  | |- preserves _ (mret _) => apply preserves_ret
  | |- preserves _ (throw _) => apply preserves_throw
  | |- preserves _ (first_rating ?rows) => apply preserves_first_rating
  | |- preserves _ (SELECT_rating _) =>
      apply preserves_query; intros ?; reflexivity
  | |- preserves _ (SELECT_id_by_name _) =>
      apply preserves_query; intros ?; reflexivity
  | |- preserves _ SELECT_count_engines =>
      apply preserves_query; intros ?; reflexivity
  | |- preserves _ (console_log _) => intros ? H; exact H
  | |- preserves _ (console_warn _) => intros ? H; exact H
  | |- preserves _ (console_error _) => intros ? H; exact H
  | |- preserves _ (if ?b then _ else _) => destruct b
  | |- preserves _ (match ?x with _ => _ end) => destruct x
  end.

Lemma preserves_updateRatings_after (db0 : Db) (fixed : bool)
    (engine1Id engine2Id : Z) (isDraw : bool) :
  preserves (λ db, after db0 fixed db)
    (updateRatings engine1Id engine2Id isDraw).
Proof. unfold updateRatings. repeat after_step. Qed.

Lemma SELECT_rating_row (id rating : Z) (ratings : list Z) (db : Db) :
  (SELECT_rating id db).1 = inr (rating :: ratings) → id ∈ e_id <$> engines db.
Proof.
  unfold SELECT_rating. simpl. intros [= Hrows].
  destruct (filter _ _) as [|e es] eqn:Hfilter; [done|].
  assert (e ∈ filter (λ e, e_id e = id) (engines db)) as Hin
    by (rewrite Hfilter; apply list_elem_of_here).
  apply list_elem_of_filter in Hin as [<- Hin].
  by apply list_elem_of_fmap_2.
Qed.

(** One more row of [games], which refers to engines of the table. *)
Lemma after_INSERT_game (db0 : Db) (fixed : bool) (row : GameRow) (db : Db) :
  g_id row = games_id_seq db + 1 →
  references_engines (e_id <$> engines db) row →
  winner_recorded row →
  after db0 fixed db →
  after db0 fixed
    (mkDb (engines db) (engines_id_seq db) (games db ++ [row])
       (games_id_seq db + 1)).
Proof.
  intros Hid Hrow Hwinner (Hcons & [Hes Hgs] & Hfixed).
  split; [|split; [split|]]; simpl; try done.
  - intros ([He Hg] & Hfk & Hw)%Hcons.
    unfold primary_keys, foreign_keys. simpl.
    rewrite fmap_app. simpl. rewrite Hid.
    split; [split; [done|by apply serial_next]|].
    split; apply Forall_app; (split; [done|]);
      (constructor; [done|constructor]).
  - etrans; [exact Hgs|]. by apply prefix_app_r.
Qed.

Lemma preserves_recordGameResult_after (db0 : Db) (fixed : bool)
    (gameResult : GameResult) (shouldUpdateRatings : bool) :
  preserves (λ db, after db0 fixed db)
    (recordGameResult gameResult shouldUpdateRatings).
Proof.
  intros db Hdb. rewrite recordGameResult_unfold.
  destruct (SELECT_rating (engine1Id gameResult) db).1
    as [e|[|rating1 ratings1]] eqn:H1; [done..|].
  destruct (SELECT_rating (engine2Id gameResult) db).1
    as [e|[|rating2 ratings2]] eqn:H2; [done..|].
  apply SELECT_rating_row in H1, H2. cbv zeta.
  match goal with
  | |- context [updateRatings _ _ _ ?db'] =>
      assert (after db0 fixed db') as Hdb'
  end.
  { apply after_INSERT_game; [done| |
      |done].
    - split; [done|]. split; [done|]. simpl.
      intros winner. by destruct (result gameResult); intros [= <-].
    - unfold winner_recorded. simpl.
      destruct (result gameResult); simpl; auto. }
  destruct (_ && _); [|exact Hdb'].
  by apply preserves_updateRatings_after.
Qed.

Lemma preserves_load_engine_after (db0 : Db) (replace : bool)
    (engineConfig : EngineConfig) (counters : Z * Z) :
  preserves (λ app, after db0 false (db app))
    (load_engine replace engineConfig counters).
Proof.
  unfold load_engine, addEngine. destruct counters as [loaded skipped].
  repeat first [ apply preserves_INSERT_engine_after | after_step ].
Qed.

Lemma preserves_load_engines_after (db0 : Db) (replace : bool)
    (engines : list EngineConfig) (counters : Z * Z) :
  preserves (λ app, after db0 false (db app))
    (load_engines replace engines counters).
Proof.
  revert counters. induction engines as [|engineConfig engines IH];
    intros counters; simpl.
  - apply preserves_ret.
  - apply preserves_bind; [apply preserves_load_engine_after|auto].
Qed.

Lemma preserves_loadEnginesFromConfig_after (db0 : Db) (node : Node)
    (configPath : string) (replace : bool) :
  preserves (λ app, after db0 false (db app))
    (loadEnginesFromConfig node configPath replace).
Proof.
  unfold loadEnginesFromConfig, readFileSync, parse_config.
  repeat first [ apply preserves_load_engines_after | after_step ].
Qed.

Lemma preserves_autoLoadEngines_after (db0 : Db) (node : Node) :
  preserves (λ app, after db0 false (db app)) (autoLoadEngines node).
Proof.
  unfold autoLoadEngines.
  repeat first [ apply preserves_loadEnginesFromConfig_after | after_step ].
Qed.

(** The statements of [recordMatchSetResult] between [BEGIN] and the
    [catch] add no engine. *)
Lemma recordMatchSetResult_after (matchSetResult : MatchSetResult) (app : App) :
  after (db app) false (db (recordMatchSetResult matchSetResult app).2).
Proof.
  unfold recordMatchSetResult.
  match goal with
  | |- context [try_catch ?m ?h app] =>
      assert (preserves (λ app', after (db app) true (db app')) m) as Hbody;
      [|specialize (Hbody app (after_refl _ _)); unfold try_catch;
        destruct (m app) as [[e|a] app']; simpl in *]
  end.
  - apply preserves_bind.
    + apply preserves_for_of. intros game.
      apply preserves_pool_after, preserves_recordGameResult_after.
    + intros _. repeat after_step.
  - assert (after (db app) true (set_engines (engines (db app)) (db app')))
      as Hrollback.
    { apply after_set_engines; [|exact Hbody]. symmetry. by apply Hbody. }
    exact (after_weaken _ true _ Hrollback).
  - exact (after_weaken _ true _ Hbody).
Qed.

(** Every call takes a consistent database to a consistent one that
    extends it. *)
Lemma run_after (call : Call) (app : App) :
  after (db app) false (db (run call app)).
Proof.
  destruct call; simpl.
  - apply (preserves_pool_after (db app) false), after_refl.
    unfold addEngine. apply preserves_INSERT_engine_after.
  - apply (preserves_pool_after (db app) false), after_refl.
    apply preserves_updateRatings_after.
  - apply (preserves_pool_after (db app) false), after_refl.
    apply preserves_recordGameResult_after.
  - apply (preserves_loadEnginesFromConfig_after (db app)), after_refl.
  - apply (preserves_autoLoadEngines_after (db app)), after_refl.
  - apply recordMatchSetResult_after.
Qed.

Lemma reachable_consistent (app : App) : reachable app → consistent (db app).
Proof.
  induction 1 as [|call app _ IH].
  - simpl. unfold primary_keys, foreign_keys, serial. simpl.
    repeat split; (constructor || lia).
  - by apply run_after.
Qed.

(** X12. The primary keys: in every state the program reaches, the ids of
    [engines] are pairwise distinct, positive and at most the last value of
    the sequence, and so are the ids of [games]; the next insert therefore
    gets an id that no row has. *)
Theorem reachable_primary_keys (app : App) :
  reachable app →
  NoDup (e_id <$> engines (db app))
  ∧ NoDup (g_id <$> games (db app))
  ∧ (∀ e, e ∈ engines (db app) → 0 < e_id e ≤ engines_id_seq (db app))
  ∧ (∀ g, g ∈ games (db app) → 0 < g_id g ≤ games_id_seq (db app)).
Proof.
  intros [[(He & Hes & _) (Hg & Hgs & _)] _]%reachable_consistent.
  rewrite Forall_fmap, Forall_forall in Hes.
  rewrite Forall_fmap, Forall_forall in Hgs.
  split; [done|]. split; [done|]. split; [exact Hes|exact Hgs].
Qed.

Lemma reachable_primary_keys_witness :
  let game :=
    mkGameResult 1 2 win None None None None None None None None in
  let app :=
    run (CallRecordGameResult game true)
      (run (CallAddEngine "Engine2" None None)
         (run (CallAddEngine "Engine1" None None) (mkApp empty_db []))) in
  NoDup (e_id <$> engines (db app))
  ∧ NoDup (g_id <$> games (db app))
  ∧ (∀ e, e ∈ engines (db app) → 0 < e_id e ≤ engines_id_seq (db app))
  ∧ (∀ g, g ∈ games (db app) → 0 < g_id g ≤ games_id_seq (db app)).
Proof.
  intros game app. apply (reachable_primary_keys app).
  unfold app. do 3 apply reachable_run. apply reachable_init.
Defined.

(** X13. The foreign keys: in every state the program reaches, each row of
    [games] refers to rows of [engines] in [engine1_id], [engine2_id] and
    [winner_id]; the winner is [NULL] exactly when [is_draw] is set, and is
    otherwise one of the two engines of the row. *)
Theorem reachable_foreign_keys (app : App) :
  reachable app →
  Forall (λ g,
            g_engine1_id g ∈ e_id <$> engines (db app)
            ∧ g_engine2_id g ∈ e_id <$> engines (db app)
            ∧ match g_winner_id g with
              | None => g_is_draw g = true
              | Some winner =>
                  g_is_draw g = false
                  ∧ (winner = g_engine1_id g ∨ winner = g_engine2_id g)
                  ∧ winner ∈ e_id <$> engines (db app)
              end)
    (games (db app)).
Proof.
  intros (_ & Hfk & Hw)%reachable_consistent.
  unfold foreign_keys in Hfk. rewrite Forall_forall in Hfk, Hw.
  apply Forall_forall. intros g Hg.
  destruct (Hfk g Hg) as (H1 & H2 & Hwinner). specialize (Hw g Hg).
  unfold winner_recorded in Hw.
  split; [done|]. split; [done|].
  destruct (g_winner_id g) as [winner|]; [|done].
  destruct Hw as [Hdraw Hor]. split; [done|]. split; [done|].
  by apply Hwinner.
Qed.

Lemma reachable_foreign_keys_witness :
  let game :=
    mkGameResult 1 2 loss None None None None None None None None in
  let app :=
    run (CallRecordGameResult game true)
      (run (CallAddEngine "Engine2" None None)
         (run (CallAddEngine "Engine1" None None) (mkApp empty_db []))) in
  Forall (λ g,
            g_engine1_id g ∈ e_id <$> engines (db app)
            ∧ g_engine2_id g ∈ e_id <$> engines (db app)
            ∧ match g_winner_id g with
              | None => g_is_draw g = true
              | Some winner =>
                  g_is_draw g = false
                  ∧ (winner = g_engine1_id g ∨ winner = g_engine2_id g)
                  ∧ winner ∈ e_id <$> engines (db app)
              end)
    (games (db app)).
Proof.
  intros game app. apply (reachable_foreign_keys app).
  unfold app. do 3 apply reachable_run. apply reachable_init.
Defined.

(** X14. No call removes, renumbers or renames an engine, and none removes
    or changes a game: whatever the state and the call, and whether the call
    returns or throws, the engines before are the first engines after, with
    their id and name, and the games before are the first games after. *)
Theorem run_extends (call : Call) (app : App) :
  (λ e, (e_id e, e_name e)) <$> engines (db app)
    `prefix_of` (λ e, (e_id e, e_name e)) <$> engines (db (run call app))
  ∧ games (db app) `prefix_of` games (db (run call app)).
Proof. by destruct (run_after call app) as (_ & Hext & _). Qed.

End schema.

(** ** Loading the engines of the configuration *)

Section loader.

Import Database Index.

Local Open Scope Z_scope.

(** The query for the id of a name returns a row exactly when some engine
    has the name. *)
Lemma SELECT_id_by_name_rows (name : string) (es : list EngineRow) :
  (0 < length (e_id <$> filter (λ e, e_name e = name) es))%nat
  ↔ name ∈ e_name <$> es.
Proof.
  rewrite length_fmap. split.
  - intros Hlen. destruct (filter _ es) as [|e es'] eqn:Hfilter;
      [simpl in Hlen; lia|].
    assert (e ∈ filter (λ e, e_name e = name) es) as Hin
      by (rewrite Hfilter; apply list_elem_of_here).
    apply list_elem_of_filter in Hin as [<- Hin].
    by apply list_elem_of_fmap_2.
  - intros (e & -> & Hin)%list_elem_of_fmap.
    assert (e ∈ filter (λ e', e_name e' = e_name e) es) as Hin'
      by (by apply list_elem_of_filter).
    destruct (filter _ es); [by apply elem_of_nil in Hin'|simpl; lia].
Qed.

(** The row of a configured engine after [UPDATE engines SET description,
    rating]. *)
#[local] Abbreviation replaced engineConfig :=
  (λ e : EngineRow,
     if bool_decide (e_name e = ec_name engineConfig)
     then mkEngineRow (e_id e) (e_name e) (ec_description engineConfig)
            (ec_initialRating engineConfig) (e_games_played e) (e_wins e)
            (e_losses e) (e_draws e)
     else e).

(** One round of the loop of [loadEnginesFromConfig]: it does not throw. *)
Lemma load_engine_unfold (replace : bool) (engineConfig : EngineConfig)
    (loaded skipped : Z) (app : App) :
  load_engine replace engineConfig (loaded, skipped) app
  = if bool_decide (ec_name engineConfig ∈ e_name <$> engines (db app)) then
      if replace then
        (inr (loaded + 1, skipped),
         mkApp (set_engines (replaced engineConfig <$> engines (db app)) (db app))
           (console app
            ++ [(Log, "🔄 Updated engine: " +:+ ec_name engineConfig)]))
      else
        (inr (loaded, skipped + 1),
         mkApp (db app)
           (console app
            ++ [(Log, "⚠️  Engine already exists: " +:+ ec_name engineConfig
                      +:+ " (use --replace to update)")]))
    else
      (inr (loaded + 1, skipped),
       mkApp
         (mkDb (engines (db app)
                ++ [mkEngineRow (engines_id_seq (db app) + 1)
                      (ec_name engineConfig) (ec_description engineConfig)
                      (ec_initialRating engineConfig) 0 0 0 0])
            (engines_id_seq (db app) + 1) (games (db app))
            (games_id_seq (db app)))
         (console app
          ++ [(Log, "➕ Added engine: " +:+ ec_name engineConfig +:+ " ("
                    +:+ JS.Number_toString (ec_initialRating engineConfig)
                    +:+ " rating)")])).
Proof.
  unfold load_engine, try_catch. rewrite bind_unfold.
  unfold pool at 1, SELECT_id_by_name.
  rewrite (bool_decide_ext _ _ (SELECT_id_by_name_rows _ _)).
  destruct (bool_decide (ec_name engineConfig ∈ _)) eqn:Hname.
  - destruct replace; reflexivity.
  - rewrite bind_unfold. unfold pool, addEngine. cbn [db console default].
    apply bool_decide_eq_false in Hname.
    rewrite INSERT_engine_fresh by exact Hname.
    reflexivity.
Qed.

Lemma prefix_elem_of {A} (l1 l2 : list A) (x : A) :
  l1 `prefix_of` l2 → x ∈ l1 → x ∈ l2.
Proof. intros [k ->] Hx. apply elem_of_app. by left. Qed.

Lemma replaced_names (engineConfig : EngineConfig) (es : list EngineRow) :
  e_name <$> (replaced engineConfig <$> es) = e_name <$> es.
Proof.
  rewrite <- list_fmap_compose. apply list_fmap_ext.
  intros i e _. simpl. by destruct (bool_decide _).
Qed.

(** The loop of [loadEnginesFromConfig] runs to its end. *)
Lemma load_engines_spec (replace : bool) (configs : list EngineConfig)
    (loaded skipped : Z) (app : App) :
  ∃ loaded' skipped' app',
    load_engines replace configs (loaded, skipped) app
    = (inr (loaded', skipped'), app')
    ∧ loaded' + skipped' = loaded + skipped + Z.of_nat (length configs)
    ∧ (if replace then skipped' = skipped
       else
         engines (db app) `prefix_of` engines (db app')
         ∧ loaded' - loaded
           = Z.of_nat (length (engines (db app')))
             - Z.of_nat (length (engines (db app)))
         ∧ ((∀ c, c ∈ configs → ec_name c ∈ e_name <$> engines (db app))
            → db app' = db app ∧ loaded' = loaded))
    ∧ e_name <$> engines (db app) `prefix_of` e_name <$> engines (db app')
    ∧ (∀ c, c ∈ configs → ec_name c ∈ e_name <$> engines (db app'))
    ∧ games (db app') = games (db app).
Proof.
  revert loaded skipped app.
  induction configs as [|c configs IH]; intros loaded skipped app.
  - exists loaded, skipped, app. split; [done|]. split; [simpl; lia|].
    split; [destruct replace; [done|]; split; [done|]; split; [lia|done]|].
    split; [done|]. split; [|done]. by intros c ?%elem_of_nil.
  - cbn [load_engines]. rewrite bind_unfold, load_engine_unfold.
    destruct (bool_decide (ec_name c ∈ _)) eqn:Hname;
      [apply bool_decide_eq_true in Hname; destruct replace
      |apply bool_decide_eq_false in Hname].
    + edestruct IH as (loaded' & skipped' & app' & -> & Hsum & Hskip & Hpre
                       & Hin & Hgames).
      exists loaded', skipped', app'. cbn [db set_engines engines games] in *.
      rewrite replaced_names in Hpre.
      split; [done|]. split; [rewrite length_cons; lia|].
      split; [done|]. split; [done|]. split; [|done].
      intros c' [->|Hc']%elem_of_cons; [|by apply Hin].
      by apply (prefix_elem_of _ _ _ Hpre).
    + edestruct IH as (loaded' & skipped' & app' & -> & Hsum & Hkeep & Hpre
                       & Hin & Hgames).
      exists loaded', skipped', app'. cbn [db] in *.
      destruct Hkeep as (Hes & Hlen & Hsame).
      split; [done|]. split; [rewrite length_cons; lia|].
      split; [split; [done|]; split; [done|]|].
      { intros Hall. apply Hsame. intros c' Hc'. apply Hall.
        by apply elem_of_cons; right. }
      split; [done|]. split; [|done].
      intros c' [->|Hc']%elem_of_cons; [|by apply Hin].
      by apply (prefix_elem_of _ _ _ Hpre).
    + edestruct IH as (loaded' & skipped' & app' & -> & Hsum & Hkeep & Hpre
                       & Hin & Hgames).
      exists loaded', skipped', app'. cbn [db engines games] in *.
      rewrite fmap_app in Hpre.
      split; [done|]. split; [rewrite length_cons; lia|].
      split.
      { destruct replace; [done|]. destruct Hkeep as (Hes & Hlen & Hsame).
        split; [by eapply prefix_app_l|].
        rewrite length_app in Hlen. simpl in Hlen.
        split; [lia|]. intros Hall. destruct Hname.
        apply Hall, list_elem_of_here. }
      split; [by eapply prefix_app_l|]. split; [|done].
      intros c' [->|Hc']%elem_of_cons; [|by apply Hin].
      apply (prefix_elem_of _ _ _ Hpre), elem_of_app. right.
      apply list_elem_of_here.
Qed.

(** The lines [loadEnginesFromConfig] writes before the loop. *)
#[local] Abbreviation header config :=
  ((Log, "📋 Tournament: " +:+ t_name (c_tournament config))
   :: match t_description (c_tournament config) with
      | Some description =>
          if bool_decide (description = "") then []
          else [(Log, "📝 Description: " +:+ description)]
      | None => []
      end).

Lemma existsSync_present (node : Node) (path data : string) :
  files node !! path_resolve node path = Some data →
  existsSync node path = true.
Proof.
  intros Hdata. unfold existsSync. rewrite Hdata.
  by apply bool_decide_eq_true_2.
Qed.

(** With a configuration that can be read, [loadEnginesFromConfig] is the
    loop over its engines. *)
Lemma loadEnginesFromConfig_readable (node : Node) (configPath : string)
    (replace : bool) (app : App) (data : string) (config : TournamentConfig)
    (configs : list EngineConfig) :
  files node !! path_resolve node (path_resolve node configPath) = Some data →
  JSON_parse node data = inr config →
  c_engines config = Some configs →
  loadEnginesFromConfig node configPath replace app
  = load_engines replace configs (0, 0)
      (mkApp (db app) (console app ++ header config)).
Proof.
  intros Hdata Hparse Hengines. unfold loadEnginesFromConfig.
  rewrite (existsSync_present _ _ _ Hdata). cbn [negb].
  unfold readFileSync, parse_config. rewrite Hdata, bind_unfold. cbn [mret M_ret].
  rewrite Hparse, bind_unfold. cbn [mret M_ret]. rewrite Hengines.
  rewrite bind_unfold. unfold console_log at 1, console_write at 1.
  rewrite bind_unfold.
  destruct (t_description (c_tournament config)) as [description|];
    [destruct (bool_decide (description = ""))|];
    cbn [mret M_ret console_log console_write db console];
    rewrite <- ?app_assoc; reflexivity.
Qed.

(** The ways in which the configuration cannot be read. *)
Lemma loadEnginesFromConfig_cases (node : Node) (configPath : string)
    (replace : bool) (app : App) :
  match files node !! path_resolve node (path_resolve node configPath) with
  | None =>
      loadEnginesFromConfig node configPath replace app
      = (inl (JS.new_Error ("Configuration file not found: "
                            +:+ path_resolve node configPath)), app)
  | Some data =>
      match JSON_parse node data with
      | inl e => loadEnginesFromConfig node configPath replace app = (inl e, app)
      | inr config =>
          match c_engines config with
          | None =>
              loadEnginesFromConfig node configPath replace app
              = (inl (JS.new_Error
                        "Invalid configuration: engines array not found"), app)
          | Some configs =>
              ∃ loaded skipped app',
                loadEnginesFromConfig node configPath replace app
                = (inr (loaded, skipped), app')
                ∧ (replace = false →
                   engines (db app) `prefix_of` engines (db app'))
                ∧ games (db app') = games (db app)
          end
      end
  end.
Proof.
  destruct (files node !! _) as [data|] eqn:Hdata.
  - destruct (JSON_parse node data) as [e|config] eqn:Hparse.
    + unfold loadEnginesFromConfig.
      rewrite (existsSync_present _ _ _ Hdata). cbn [negb].
      unfold readFileSync, parse_config. rewrite Hdata, bind_unfold.
      cbn [mret M_ret]. by rewrite Hparse.
    + destruct (c_engines config) as [configs|] eqn:Hengines.
      * rewrite (loadEnginesFromConfig_readable _ _ _ _ _ _ _
                   Hdata Hparse Hengines).
        edestruct (load_engines_spec replace configs 0 0)
          as (loaded & skipped & app' & -> & _ & Hkeep & _ & _ & Hgames).
        exists loaded, skipped, app'. split; [done|]. split; [|done].
        intros ->. by destruct Hkeep.
      * unfold loadEnginesFromConfig.
        rewrite (existsSync_present _ _ _ Hdata). cbn [negb].
        unfold readFileSync, parse_config. rewrite Hdata, bind_unfold.
        cbn [mret M_ret]. rewrite Hparse, bind_unfold. cbn [mret M_ret].
        by rewrite Hengines.
  - unfold loadEnginesFromConfig. by rewrite existsSync_missing.
Qed.

(** X15. When [loadEnginesFromConfig] returns, the configuration file
    exists and parses to a configuration with an [engines] array; every
    configured engine was counted once, as loaded or as skipped (never
    skipped with [replace]), every configured name of at most 255
    characters is a name of the table afterwards, and the games are
    untouched. *)
Theorem loadEnginesFromConfig_loads (node : Node) (configPath : string)
    (replace : bool) (app : App) (loaded skipped : Z) (app' : App) :
  loadEnginesFromConfig node configPath replace app
  = (inr (loaded, skipped), app') →
  ∃ data config configs,
    files node !! path_resolve node (path_resolve node configPath) = Some data
    ∧ JSON_parse node data = inr config
    ∧ c_engines config = Some configs
    ∧ loaded + skipped = Z.of_nat (length configs)
    ∧ (replace = true → skipped = 0)
    ∧ (∀ c, c ∈ configs → Schema.varchar_255 (ec_name c) →
         ec_name c ∈ e_name <$> engines (db app'))
    ∧ games (db app') = games (db app).
Proof.
  intros Hreturns.
  pose proof (loadEnginesFromConfig_cases node configPath replace app) as Hcases.
  destruct (files node !! _) as [data|] eqn:Hdata;
    [|by rewrite Hcases in Hreturns].
  destruct (JSON_parse node data) as [e|config] eqn:Hparse;
    [by rewrite Hcases in Hreturns|].
  destruct (c_engines config) as [configs|] eqn:Hengines;
    [|by rewrite Hcases in Hreturns].
  exists data, config, configs.
  rewrite (loadEnginesFromConfig_readable _ _ _ _ _ _ _ Hdata Hparse Hengines)
    in Hreturns.
  edestruct (load_engines_spec replace configs 0 0)
    as (loaded' & skipped' & app1 & Hloop & Hsum & Hreplace & _ & Hin & Hgames).
  rewrite Hloop in Hreturns. injection Hreturns as -> -> ->.
  do 3 (split; [done|]). split; [lia|].
  split; [by intros ->|]. split; [|done]. intros c Hc _. by apply Hin.
Qed.

Lemma loadEnginesFromConfig_loads_witness :
  let configs :=
    [mkEngineConfig "Engine1" "./engine1" "/engines" [] 1500 None None None None;
     mkEngineConfig "Engine2" "./engine2" "/engines" [] 1600 None None None None] in
  let config :=
    mkTournamentConfig (mkTournament "Test" None None None None) (Some configs) in
  let node :=
    mkNode (λ path, if String.prefix "/" path then path else "/app/" +:+ path)
      (λ _, inr config) {[ "/app/engines.json" := "{}" ]} None in
  let app := mkApp (mkDb [mkEngineRow 1 "Engine1" None 1450 3 1 1 1] 1 [] 0) [] in
  let app' := (loadEnginesFromConfig node "engines.json" true app).2 in
  ∃ data config' configs',
    files node !! path_resolve node (path_resolve node "engines.json")
    = Some data
    ∧ JSON_parse node data = inr config'
    ∧ c_engines config' = Some configs'
    ∧ 2 + 0 = Z.of_nat (length configs')
    ∧ (true = true → 0 = 0)
    ∧ (∀ c, c ∈ configs' → Schema.varchar_255 (ec_name c) →
         ec_name c ∈ e_name <$> engines (db app'))
    ∧ games (db app') = games (db app).
Proof.
  intros configs config node app app'.
  apply (loadEnginesFromConfig_loads node "engines.json" true app 2 0 app').
  reflexivity.
Defined.



(** X17. Loading the same configuration again changes nothing: when a
    first [loadEnginesFromConfig], with or without [replace], of a
    configuration whose names have at most 255 characters returns, a second
    one without [replace] returns [{ loaded: 0, skipped: n }] for the [n]
    configured engines and leaves the database as the first left it. *)
Theorem loadEnginesFromConfig_twice (node : Node) (configPath : string)
    (replace : bool) (app : App) (data : string) (config : TournamentConfig)
    (configs : list EngineConfig) (loaded skipped : Z) (app1 : App) :
  files node !! path_resolve node (path_resolve node configPath) = Some data →
  JSON_parse node data = inr config →
  c_engines config = Some configs →
  Forall (λ c, Schema.varchar_255 (ec_name c)) configs →
  loadEnginesFromConfig node configPath replace app
  = (inr (loaded, skipped), app1) →
  ∃ app2,
    loadEnginesFromConfig node configPath false app1
    = (inr (0, Z.of_nat (length configs)), app2)
    ∧ db app2 = db app1.
Proof.
  intros Hdata Hparse Hengines _ Hfirst.
  rewrite (loadEnginesFromConfig_readable _ _ _ _ _ _ _ Hdata Hparse Hengines)
    in Hfirst.
  edestruct (load_engines_spec replace configs 0 0)
    as (loaded1 & skipped1 & app1' & Hloop & _ & _ & _ & Hin & _).
  rewrite Hloop in Hfirst. injection Hfirst as -> -> ->.
  rewrite (loadEnginesFromConfig_readable _ _ _ _ _ _ _ Hdata Hparse Hengines).
  edestruct (load_engines_spec false configs 0 0)
    as (loaded' & skipped' & app2 & -> & Hsum & (_ & _ & Hsame) & _).
  exists app2. cbn [db] in *. destruct (Hsame Hin) as [-> ->].
  split; [|done]. do 2 f_equal. f_equal. lia.
Qed.

Lemma loadEnginesFromConfig_twice_witness :
  let configs :=
    [mkEngineConfig "Engine1" "./engine1" "/engines" [] 1500 None None None None;
     mkEngineConfig "Engine2" "./engine2" "/engines" [] 1600 None None None None] in
  let config :=
    mkTournamentConfig (mkTournament "Test" None None None None) (Some configs) in
  let node :=
    mkNode (λ path, if String.prefix "/" path then path else "/app/" +:+ path)
      (λ _, inr config) {[ "/app/engines.json" := "{}" ]} None in
  let app := mkApp (mkDb [mkEngineRow 1 "Engine1" None 1450 3 1 1 1] 1 [] 0) [] in
  let app1 := (loadEnginesFromConfig node "engines.json" true app).2 in
  ∃ app2,
    loadEnginesFromConfig node "engines.json" false app1 = (inr (0, 2), app2)
    ∧ db app2 = db app1.
Proof.
  intros configs config node app app1.
  apply (loadEnginesFromConfig_twice node "engines.json" true app "{}" config
           configs 2 0 app1); [reflexivity..| |reflexivity].
  repeat constructor; unfold Schema.varchar_255; simpl; lia.
Defined.

(** The columns that [--replace] leaves alone. *)
#[local] Abbreviation statistics :=
  (λ e : EngineRow,
     (e_id e, e_name e, e_games_played e, e_wins e, e_losses e, e_draws e)).








(** X20. [autoLoadEngines] never throws, whatever the configuration file is
    or holds: a failure of [loadEnginesFromConfig] ends as a warning.  It
    changes no row of [engines] and no game; it can only add engines. *)
Theorem autoLoadEngines_never_throws (node : Node) (app : App) :
  ∃ app',
    autoLoadEngines node app = (inr tt, app')
    ∧ engines (db app) `prefix_of` engines (db app')
    ∧ games (db app') = games (db app).
Proof.
  unfold autoLoadEngines.
  destruct (existsSync node (DEFAULT_CONFIG_FILE node)); cbn [negb].
  - unfold try_catch. rewrite bind_unfold.
    unfold console_log at 1, console_write at 1. rewrite bind_unfold.
    pose proof (loadEnginesFromConfig_cases node (DEFAULT_CONFIG_FILE node) false
                  (mkApp (db app)
                     (console app
                      ++ [(Log, "🔄 Auto-loading engines from "
                                +:+ DEFAULT_CONFIG_FILE node +:+ "...")])))
      as Hcases.
    assert (∀ e, ∃ app',
              (console_warn ("⚠️  Failed to auto-load engines: "
                             +:+ JS.Error_toString e) ;;
               console_log
                 "ℹ️  You can manually load engines using the load-config command")
                (mkApp (db app)
                   (console app
                    ++ [(Log, "🔄 Auto-loading engines from "
                              +:+ DEFAULT_CONFIG_FILE node +:+ "...")]))
              = (inr tt, app')
              ∧ engines (db app) `prefix_of` engines (db app')
              ∧ games (db app') = games (db app)) as Hwarn.
    { intros e. eexists. split; [reflexivity|]. by split. }
    destruct (files node !! _) as [data|].
    + destruct (JSON_parse node data) as [e|config].
      * rewrite Hcases. apply Hwarn.
      * destruct (c_engines config) as [configs|].
        -- destruct Hcases as (loaded & skipped & app1 & -> & Hes & Hgames).
           specialize (Hes eq_refl). cbn [db] in Hes, Hgames.
           destruct (bool_decide (0 < loaded)), (bool_decide (0 < skipped));
             (eexists; split; [reflexivity|]; by split).
        -- rewrite Hcases. apply Hwarn.
    + rewrite Hcases. apply Hwarn.
  - eexists. split; [reflexivity|]. by split.
Qed.

End loader.

(** ** The configuration of one engine, and match sets *)

Section engine_config.

Import Database Index.

(** X21. [getEngineWithConfig] reads and never writes: the database is as
    before whether it returns or throws.  When it returns, nothing was
    written to the console and the result is the database row together with
    the fields of an entry of the configuration that has the name of the
    row; when it throws, exactly one line was written, the error line with
    the name of the engine and the error thrown. *)
Theorem getEngineWithConfig_effect (node : Node) (engineDbRow : EngineRow)
    (app : App) :
  match getEngineWithConfig node engineDbRow app with
  | (inr engine, app') =>
      app' = app
      ∧ w_row engine = engineDbRow
      ∧ w_working_directory engine = w_workingDirectory engine
      ∧ ∃ data config engines engineConfig,
          files node
            !! path_resolve node (path_resolve node (DEFAULT_CONFIG_FILE node))
          = Some data
          ∧ JSON_parse node data = inr config
          ∧ c_engines config = Some engines
          ∧ engineConfig ∈ engines
          ∧ ec_name engineConfig = e_name engineDbRow
          ∧ w_executable engine = ec_executable engineConfig
          ∧ w_workingDirectory engine = ec_workingDirectory engineConfig
          ∧ w_arguments engine = ec_arguments engineConfig
  | (inl e, app') =>
      db app' = db app
      ∧ console app'
        = console app
          ++ [(Err, "❌ Failed to load configuration for engine "
                    +:+ e_name engineDbRow +:+ ": "
                    +:+ JS.Error_toString e)]
  end.
Proof.
  unfold getEngineWithConfig, try_catch, existsSync, readFileSync, parse_config.
  destruct (files node !! _) as [data|] eqn:Hdata.
  - rewrite bool_decide_eq_true_2 by eauto. cbn [negb].
    rewrite bind_unfold. cbn [mret M_ret].
    destruct (JSON_parse node data) as [e|config] eqn:Hparse; [by split|].
    rewrite bind_unfold. cbn [mret M_ret].
    destruct (c_engines config) as [engines|] eqn:Hengines; [|by split].
    destruct (List.find _ engines) as [engineConfig|] eqn:Hfind; [|by split].
    cbn [mret M_ret]. split; [done|]. split; [done|]. split; [done|].
    apply find_some in Hfind as [Hin Hname%bool_decide_eq_true].
    exists data, config, engines, engineConfig.
    rewrite <- list_elem_of_In in Hin. by repeat split.
  - rewrite bool_decide_eq_false_2 by (by intros [? ?]). by split.
Qed.

End engine_config.

Section match_sets.

Import Database Index Play.

Local Open Scope R_scope.

(** The scoreboard after the games [new], played from the scoreboard [sb]. *)
#[local] Abbreviation scored sb new :=
  (foldl (λ sb game, score_game game sb) sb new).

(** The number of games with a given result. *)
#[local] Abbreviation count r games :=
  (INR (length (filter (λ game : GameResult, result game = r) games))).

Lemma play_position_spec (playGame : PlayGame) (engine1Id engine2Id : Z)
    (timeControl : string) (matchSet : MatchSet)
    (startingPosition : StartingPosition) (app : App) (sb : Scoreboard) :
  ∃ r app' new,
    play_position playGame engine1Id engine2Id timeControl matchSet
      startingPosition (app, sb)
    = (r, (app', scored sb new))
    ∧ match r with
      | inr _ => length new = 2%nat
      | inl _ => (length new < 2)%nat
      end.
Proof.
  unfold play_position. rewrite bind_unfold. unfold with_scoreboard at 1.
  destruct (playGame _ _ _ _ _ white app) as [[e|game1] app1].
  { exists (inl e), app1, []. split; [done|simpl; lia]. }
  rewrite bind_unfold. unfold on_scoreboard at 1.
  rewrite bind_unfold. unfold with_scoreboard at 1.
  destruct (playGame _ _ _ _ _ black app1) as [[e|game2] app2].
  { exists (inl e), app2, [game1]. split; [done|simpl; lia]. }
  exists (inr tt), app2, [game1; game2]. by split.
Qed.

Lemma for_of_play_position (playGame : PlayGame) (engine1Id engine2Id : Z)
    (timeControl : string) (matchSet : MatchSet)
    (positions : list StartingPosition) (app : App) (sb : Scoreboard) :
  ∃ r app' new,
    for_of positions
      (play_position playGame engine1Id engine2Id timeControl matchSet)
      (app, sb)
    = (r, (app', scored sb new))
    ∧ match r with
      | inr _ => length new = (2 * length positions)%nat
      | inl _ => (length new < 2 * length positions)%nat
      end.
Proof.
  revert app sb. induction positions as [|position positions IH]; intros app sb.
  - exists (inr tt), app, []. by split.
  - cbn [for_of]. rewrite bind_unfold.
    destruct (play_position_spec playGame engine1Id engine2Id timeControl
                matchSet position app sb) as (r1 & app1 & new1 & -> & Hnew1).
    destruct r1 as [e|[]].
    + exists (inl e), app1, new1. split; [done|]. simpl. lia.
    + destruct (IH app1 (scored sb new1)) as (r & app' & new & -> & Hnew).
      exists r, app', (new1 ++ new). rewrite foldl_app. split; [done|].
      rewrite length_app. simpl. destruct r; lia.
Qed.

(** The scoreboard holds the games in the order played, a point for each
    win and half a point for each draw. *)
Lemma scored_scores (new : list GameResult) (sb : Scoreboard) :
  sb_engine1Score sb = count win (sb_games sb) + count draw (sb_games sb) / 2 →
  sb_engine2Score sb = count loss (sb_games sb) + count draw (sb_games sb) / 2 →
  sb_games (scored sb new) = sb_games sb ++ new
  ∧ sb_engine1Score (scored sb new)
    = count win (sb_games sb ++ new) + count draw (sb_games sb ++ new) / 2
  ∧ sb_engine2Score (scored sb new)
    = count loss (sb_games sb ++ new) + count draw (sb_games sb ++ new) / 2.
Proof.
  revert sb. induction new as [|game new IH]; intros sb H1 H2.
  - simpl. by rewrite app_nil_r.
  - cbn [foldl].
    assert (sb_games (score_game game sb) = sb_games sb ++ [game]) as Hgames
      by (unfold score_game; by destruct (result game)).
    destruct (IH (score_game game sb)) as (IHg & IH1 & IH2).
    + rewrite Hgames, !filter_app, !length_app, !plus_INR, !filter_cons,
        !filter_nil.
      unfold score_game. destruct (result game) eqn:Hresult; simpl;
        rewrite H1; lra.
    + rewrite Hgames, !filter_app, !length_app, !plus_INR, !filter_cons,
        !filter_nil.
      unfold score_game. destruct (result game) eqn:Hresult; simpl;
        rewrite H2; lra.
    + rewrite Hgames, <- app_assoc in IHg, IH1, IH2. done.
Qed.

Lemma count_results (games : list GameResult) :
  INR (length games)
  = count win games + count loss games + count draw games
    + count Database.error games.
Proof.
  induction games as [|game games IH]; [simpl; lra|].
  rewrite !filter_cons, length_cons, S_INR, IH.
  destruct (result game) eqn:Hresult;
    repeat first [rewrite decide_True by done | rewrite decide_False by done];
    rewrite ?length_cons, ?S_INR; lra.
Qed.

(** X22. [playMatchSet] always returns a result, also when [playGame]
    throws.  In the result, [totalGames] is the number of games played,
    error games included; [engine1Score] is the number of wins plus half the
    number of draws and [engine2Score] the number of losses plus half the
    number of draws, so that the two scores add up to the number of games
    that are not error games.  A completed match set has two games for each
    starting position, an interrupted one has fewer. *)
Theorem playMatchSet_scores (playGame : PlayGame) (engine1Id engine2Id : Z)
    (timeControl : string) (matchSet : MatchSet) (app : App) :
  ∃ r app',
    playMatchSet playGame engine1Id engine2Id timeControl matchSet app
    = (inr r, app')
    ∧ totalGames r = Z.of_nat (length (ms_games r))
    ∧ engine1Score r = count win (ms_games r) + count draw (ms_games r) / 2
    ∧ engine2Score r = count loss (ms_games r) + count draw (ms_games r) / 2
    ∧ engine1Score r + engine2Score r
      = INR (length (ms_games r)) - count Database.error (ms_games r)
    ∧ if completed r
      then length (ms_games r) = (2 * length (m_startingPositions matchSet))%nat
      else (length (ms_games r) < 2 * length (m_startingPositions matchSet))%nat.
Proof.
  unfold playMatchSet.
  destruct (for_of_play_position playGame engine1Id engine2Id timeControl
              matchSet (m_startingPositions matchSet) app
              (mkScoreboard [] 0 0)) as (r & app' & new & -> & Hnew).
  destruct (scored_scores new (mkScoreboard [] 0 0)) as (Hgames & H1 & H2);
    [simpl; lra..|].
  simpl in Hgames, H1, H2.
  eexists _, app'. split; [reflexivity|]. cbn [totalGames ms_games
    engine1Score engine2Score completed].
  rewrite H1, H2, Hgames. split; [done|]. split; [done|]. split; [done|].
  split; [rewrite (count_results new); lra|].
  by destruct r.
Qed.

Lemma SELECT_engine_rows (id : Z) (es : list EngineRow) :
  match filter (λ e, e_id e = id) es with
  | [] => id ∉ e_id <$> es
  | engine :: _ => id ∈ e_id <$> es ∧ engine ∈ es ∧ e_id engine = id
  end.
Proof.
  destruct (filter _ es) as [|engine rows] eqn:Hfilter.
  - intros (e & -> & He)%list_elem_of_fmap.
    by apply (filter_nil_not_elem_of _ _ e Hfilter).
  - assert (engine ∈ filter (λ e, e_id e = id) es) as Hin
      by (rewrite Hfilter; apply list_elem_of_here).
    apply list_elem_of_filter in Hin as [<- Hin].
    split; [by apply list_elem_of_fmap_2|done].
Qed.

(** X23. [playGame] throws only ['One or both engines not found'], exactly
    when one of the two ids has no row in [engines], and before it has
    written a line.  A failure of the game itself is not thrown: the game
    that [playGame] then returns is an ['error'] game of the same two
    engines, with the colour asked for for engine 1 and the other colour for
    engine 2, and the message of the error. *)
Theorem playGame_outcome (runEngineGame : RunEngineGame)
    (engine1Id engine2Id : Z) (timeControl : string)
    (startingPosition : option StartingPosition) (matchSetName : option string)
    (engine1Color : Color) (app : App) :
  match playGame runEngineGame engine1Id engine2Id timeControl
          startingPosition matchSetName engine1Color app with
  | (inl e, app') =>
      e = JS.new_Error "One or both engines not found"
      ∧ (engine1Id ∉ e_id <$> engines (db app)
         ∨ engine2Id ∉ e_id <$> engines (db app))
      ∧ db app' = db app
      ∧ console app' = console app
  | (inr game, app') =>
      engine1Id ∈ e_id <$> engines (db app)
      ∧ engine2Id ∈ e_id <$> engines (db app)
      ∧ ((∃ engine1 engine2 app0 app1,
            e_id engine1 = engine1Id ∧ e_id engine2 = engine2Id
            ∧ runEngineGame engine1 engine2 timeControl startingPosition
                matchSetName engine1Color app0
              = (inr game, app1))
         ∨ (∃ e,
              game
              = mkGameResult engine1Id engine2Id Database.error None None
                  (Some (JS.error_message e)) None
                  (sp_name <$> startingPosition) (truthy matchSetName)
                  (Some engine1Color) (Some (opposite engine1Color))
              ∧ ∃ lines,
                  console app'
                  = lines ++ [(Err, "❌ Game error: " +:+ JS.Error_toString e)]))
  end.
Proof.
  unfold playGame. rewrite bind_unfold. unfold pool at 1, SELECT_engine at 1.
  rewrite bind_unfold. unfold pool at 1, SELECT_engine at 1. cbn [db console].
  pose proof (SELECT_engine_rows engine1Id (engines (db app))) as H1.
  pose proof (SELECT_engine_rows engine2Id (engines (db app))) as H2.
  destruct (filter _ _) as [|engine1 rows1];
    [cbn; split; [done|]; split; [by left|done]|].
  destruct (filter _ _) as [|engine2 rows2];
    [cbn; split; [done|]; split; [by right|done]|].
  destruct H1 as (H1 & _ & Hid1), H2 as (H2 & _ & Hid2).
  rewrite bind_unfold. unfold console_log at 1, console_write at 1.
  cbn [db console]. unfold try_catch. rewrite bind_unfold.
  destruct (runEngineGame _ _ _ _ _ _ _) as [[e|game] app1] eqn:Hrun.
  - cbn. split; [done|]. split; [done|]. right. exists e. split; [done|].
    by eexists.
  - cbn. split; [done|]. split; [done|]. left. eauto 10.
Qed.

(** [runEngineGame] does not write to the database. *)
#[local] Abbreviation reads_only runEngineGame :=
  (∀ engine1 engine2 timeControl startingPosition matchSetName engine1Color
     (app : App),
     db (runEngineGame engine1 engine2 timeControl startingPosition
           matchSetName engine1Color app).2
     = db app).

Lemma playGame_present (runEngineGame : RunEngineGame)
    (engine1Id engine2Id : Z) (timeControl : string)
    (startingPosition : option StartingPosition) (matchSetName : option string)
    (engine1Color : Color) (app : App) :
  reads_only runEngineGame →
  engine1Id ∈ e_id <$> engines (db app) →
  engine2Id ∈ e_id <$> engines (db app) →
  ∃ game app',
    playGame runEngineGame engine1Id engine2Id timeControl startingPosition
      matchSetName engine1Color app
    = (inr game, app')
    ∧ db app' = db app.
Proof.
  intros Hrun H1 H2.
  unfold playGame. rewrite bind_unfold. unfold pool at 1, SELECT_engine at 1.
  rewrite bind_unfold. unfold pool at 1, SELECT_engine at 1. cbn [db console].
  pose proof (SELECT_engine_rows engine1Id (engines (db app))) as Hrows1.
  pose proof (SELECT_engine_rows engine2Id (engines (db app))) as Hrows2.
  destruct (filter _ _) as [|engine1 rows1]; [done|].
  destruct (filter _ _) as [|engine2 rows2]; [done|].
  rewrite bind_unfold. unfold console_log at 1, console_write at 1.
  cbn [db console]. unfold try_catch. rewrite bind_unfold.
  match goal with
  | |- context [runEngineGame ?e1 ?e2 ?tc ?sp ?name ?color ?app0] =>
      pose proof (Hrun e1 e2 tc sp name color app0) as Hdb;
      destruct (runEngineGame e1 e2 tc sp name color app0) as [[e|game] app1]
  end; cbn in *; eauto.
Qed.

Lemma playGame_missing (runEngineGame : RunEngineGame)
    (engine1Id engine2Id : Z) (timeControl : string)
    (startingPosition : option StartingPosition) (matchSetName : option string)
    (engine1Color : Color) (app : App) :
  engine1Id ∉ e_id <$> engines (db app)
  ∨ engine2Id ∉ e_id <$> engines (db app) →
  ∃ app',
    playGame runEngineGame engine1Id engine2Id timeControl startingPosition
      matchSetName engine1Color app
    = (inl (JS.new_Error "One or both engines not found"), app')
    ∧ db app' = db app.
Proof.
  intros Hmissing.
  unfold playGame. rewrite bind_unfold. unfold pool at 1, SELECT_engine at 1.
  rewrite bind_unfold. unfold pool at 1, SELECT_engine at 1. cbn [db console].
  pose proof (SELECT_engine_rows engine1Id (engines (db app))) as Hrows1.
  pose proof (SELECT_engine_rows engine2Id (engines (db app))) as Hrows2.
  destruct (filter _ _) as [|engine1 rows1]; [by eexists|].
  destruct (filter _ _) as [|engine2 rows2]; [by eexists|].
  destruct Hrows1 as [H1 _], Hrows2 as [H2 _]. by destruct Hmissing.
Qed.

(** With both engines in the table, the loop of [playMatchSet] runs to its
    end. *)
Lemma for_of_play_position_present (runEngineGame : RunEngineGame)
    (engine1Id engine2Id : Z) (timeControl : string) (matchSet : MatchSet)
    (positions : list StartingPosition) (app : App) (sb : Scoreboard) :
  reads_only runEngineGame →
  engine1Id ∈ e_id <$> engines (db app) →
  engine2Id ∈ e_id <$> engines (db app) →
  ∃ app' sb',
    for_of positions
      (play_position (playGame_of runEngineGame) engine1Id engine2Id
         timeControl matchSet)
      (app, sb)
    = (inr tt, (app', sb'))
    ∧ db app' = db app.
Proof.
  intros Hrun. revert app sb.
  induction positions as [|position positions IH]; intros app sb H1 H2.
  - by exists app, sb.
  - cbn [for_of]. rewrite bind_unfold.
    unfold play_position at 1.
    rewrite bind_unfold. unfold with_scoreboard at 1.
    destruct (playGame_present runEngineGame engine1Id engine2Id timeControl
                (Some position) (Some (m_name matchSet)) white app)
      as (game1 & app1 & Hgame1 & Hdb1); [done..|].
    change (playGame_of runEngineGame engine1Id engine2Id timeControl position
              (m_name matchSet) white app = (inr game1, app1)) in Hgame1.
    rewrite Hgame1.
    rewrite bind_unfold. unfold on_scoreboard at 1.
    rewrite bind_unfold. unfold with_scoreboard at 1.
    destruct (playGame_present runEngineGame engine1Id engine2Id timeControl
                (Some position) (Some (m_name matchSet)) black app1)
      as (game2 & app2 & Hgame2 & Hdb2); [done|by rewrite Hdb1..|].
    change (playGame_of runEngineGame engine1Id engine2Id timeControl position
              (m_name matchSet) black app1 = (inr game2, app2)) in Hgame2.
    rewrite Hgame2.
    unfold on_scoreboard at 1.
    destruct (IH app2 (score_game game2 (score_game game1 sb)))
      as (app' & sb' & -> & Hdb'); [by rewrite Hdb2, Hdb1..|].
    exists app', sb'. split; [done|]. by rewrite Hdb', Hdb2, Hdb1.
Qed.

(** X24. With both engines in the table, and a [runEngineGame] that does not
    write to the database, [playMatchSet] completes: it returns
    [completed: true] with two games for each starting position and leaves
    the database as it was.  No failure of a game interrupts the match
    set. *)
Theorem playMatchSet_completes (runEngineGame : RunEngineGame)
    (engine1Id engine2Id : Z) (timeControl : string) (matchSet : MatchSet)
    (app : App) :
  reads_only runEngineGame →
  engine1Id ∈ e_id <$> engines (db app) →
  engine2Id ∈ e_id <$> engines (db app) →
  ∃ r app',
    playMatchSet (playGame_of runEngineGame) engine1Id engine2Id timeControl
      matchSet app
    = (inr r, app')
    ∧ completed r = true
    ∧ length (ms_games r) = (2 * length (m_startingPositions matchSet))%nat
    ∧ totalGames r
      = Z.of_nat (2 * length (m_startingPositions matchSet))
    ∧ db app' = db app.
Proof.
  intros Hrun H1 H2. unfold playMatchSet.
  destruct (for_of_play_position (playGame_of runEngineGame) engine1Id
              engine2Id timeControl matchSet (m_startingPositions matchSet)
              app (mkScoreboard [] 0 0)) as (r & app' & new & Hloop & Hnew).
  destruct (for_of_play_position_present runEngineGame engine1Id engine2Id
              timeControl matchSet (m_startingPositions matchSet) app
              (mkScoreboard [] 0 0) Hrun H1 H2) as (app2 & sb2 & Hloop' & Hdb).
  rewrite Hloop in Hloop'. injection Hloop' as -> -> Hsb.
  rewrite Hloop.
  destruct (scored_scores new (mkScoreboard [] 0 0)) as (Hgames & _);
    [simpl; lra..|].
  simpl in Hgames.
  eexists _, app2. split; [reflexivity|].
  cbn [completed ms_games totalGames]. rewrite Hgames, Hnew. by repeat split.
Qed.

Lemma playMatchSet_completes_witness :
  let runEngineGame : RunEngineGame :=
    λ engine1 engine2 _ startingPosition matchSetName engine1Color,
      mret (mkGameResult (e_id engine1) (e_id engine2) draw (Some []) (Some 0%Z)
              None None (sp_name <$> startingPosition) (truthy matchSetName)
              (Some engine1Color) (Some (opposite engine1Color))) in
  let matchSet :=
    mkMatchSet "Standard" None [mkStartingPosition "Initial Position" None [] None]
      2 in
  let app :=
    mkApp (mkDb [mkEngineRow 1 "Engine1" None 1500 0 0 0 0;
                 mkEngineRow 2 "Engine2" None 1500 0 0 0 0] 2 [] 0) [] in
  ∃ r app',
    playMatchSet (playGame_of runEngineGame) 1 2 "10+0.1" matchSet app
    = (inr r, app')
    ∧ completed r = true
    ∧ length (ms_games r) = 2%nat
    ∧ totalGames r = 2%Z
    ∧ db app' = db app.
Proof.
  intros runEngineGame matchSet app.
  apply (playMatchSet_completes runEngineGame 1 2 "10+0.1" matchSet app).
  - intros. reflexivity.
  - apply list_elem_of_here.
  - apply list_elem_of_further, list_elem_of_here.
Defined.

Lemma recordMatchSetResult_engine_not_found (r : MatchSetResult) (app : App) :
  ms_games r = [] →
  ms_engine1Id r ∉ e_id <$> engines (db app)
  ∨ ms_engine2Id r ∉ e_id <$> engines (db app) →
  ∃ app'',
    recordMatchSetResult r app
    = (inl (JS.new_Error "Engine not found for rating update"), app'')
    ∧ db app'' = db app.
Proof.
  intros Hgames Hmissing.
  pose proof (SELECT_engine_rows (ms_engine1Id r) (engines (db app))) as Hrows1.
  pose proof (SELECT_engine_rows (ms_engine2Id r) (engines (db app))) as Hrows2.
  unfold recordMatchSetResult, try_catch, mbind, M_bind, pool, SELECT_rating.
  rewrite Hgames. cbn [for_of mret M_ret db console].
  destruct (filter (λ e, e_id e = ms_engine1Id r) _) as [|engine1 rows1].
  - cbn. eexists. split; [reflexivity|]. by destruct (db app).
  - destruct (filter (λ e, e_id e = ms_engine2Id r) _) as [|engine2 rows2].
    + cbn. eexists. split; [reflexivity|]. by destruct (db app).
    + destruct Hrows1 as [? _], Hrows2 as [? _]. by destruct Hmissing.
Qed.

(** X25. A match set for an engine that is not in the table: [playMatchSet]
    does not throw but returns [completed: false] with no game and
    [totalGames] 0 (when the match set has a starting position), and
    [recordMatchSetResult] of that result throws ['Engine not found for
    rating update'], the database unchanged. *)
Theorem playMatchSet_engine_not_found (runEngineGame : RunEngineGame)
    (engine1Id engine2Id : Z) (timeControl : string) (matchSet : MatchSet)
    (app : App) :
  engine1Id ∉ e_id <$> engines (db app)
  ∨ engine2Id ∉ e_id <$> engines (db app) →
  m_startingPositions matchSet ≠ [] →
  ∃ r app' app'',
    playMatchSet (playGame_of runEngineGame) engine1Id engine2Id timeControl
      matchSet app
    = (inr r, app')
    ∧ completed r = false
    ∧ ms_games r = []
    ∧ totalGames r = 0%Z
    ∧ db app' = db app
    ∧ recordMatchSetResult r app'
      = (inl (JS.new_Error "Engine not found for rating update"), app'')
    ∧ db app'' = db app.
Proof.
  intros Hmissing Hpositions. unfold playMatchSet.
  destruct (m_startingPositions matchSet) as [|position positions]; [done|].
  cbn [for_of]. rewrite bind_unfold. unfold play_position at 1.
  rewrite bind_unfold. unfold with_scoreboard at 1.
  destruct (playGame_missing runEngineGame engine1Id engine2Id timeControl
              (Some position) (Some (m_name matchSet)) white app Hmissing)
    as (app' & Hgame & Hdb).
  change (playGame_of runEngineGame engine1Id engine2Id timeControl position
            (m_name matchSet) white app
          = (inl (JS.new_Error "One or both engines not found"), app'))
    in Hgame.
  rewrite Hgame.
  match goal with
  | |- ∃ r app' app'', (inr ?r0, ?app0) = _ ∧ _ =>
      destruct (recordMatchSetResult_engine_not_found r0 app0)
        as (app'' & Hrecord & Hdb'');
      [done|cbn [ms_engine1Id ms_engine2Id]; by rewrite Hdb|];
      exists r0, app0, app''
  end.
  split; [done|]. split; [done|]. split; [done|]. split; [done|].
  split; [done|]. split; [done|]. by rewrite Hdb'', Hdb.
Qed.

Lemma playMatchSet_engine_not_found_witness :
  let runEngineGame : RunEngineGame :=
    λ _ _ _ _ _ _, throw (JS.new_Error "spawn ENOENT") in
  let matchSet :=
    mkMatchSet "Standard" None [mkStartingPosition "Initial Position" None [] None]
      2 in
  let app :=
    mkApp (mkDb [mkEngineRow 1 "Engine1" None 1500 0 0 0 0] 1 [] 0) [] in
  ∃ r app' app'',
    playMatchSet (playGame_of runEngineGame) 1 99999 "10+0.1" matchSet app
    = (inr r, app')
    ∧ completed r = false
    ∧ ms_games r = []
    ∧ totalGames r = 0%Z
    ∧ db app' = db app
    ∧ recordMatchSetResult r app'
      = (inl (JS.new_Error "Engine not found for rating update"), app'')
    ∧ db app'' = db app.
Proof.
  intros runEngineGame matchSet app.
  apply (playMatchSet_engine_not_found runEngineGame 1 99999 "10+0.1" matchSet
           app).
  - right. simpl. rewrite list_elem_of_singleton. discriminate.
  - discriminate.
Defined.

End match_sets.

(** ** The choice of the next pairing *)

Section scheduler.

Import Database Index Scheduler.

Local Open Scope R_scope.

Lemma Rmax_bounds (a b c : R) : a <= c → b <= c → a <= Rmax a b <= c.
Proof. intros Ha Hb. unfold Rmax. destruct (Rle_dec a b); lra. Qed.

Lemma Rmin_bounds (a b c : R) : c <= a → c <= b → c <= Rmin a b <= a.
Proof. intros Ha Hb. unfold Rmin. destruct (Rle_dec a b); lra. Qed.

Lemma foldl_Rplus (a : R) (xs : list R) : foldl Rplus a xs = a + sum xs.
Proof.
  unfold sum. revert a. induction xs as [|x xs IH]; intros a; simpl; [lra|].
  rewrite IH, (IH (0 + x)). lra.
Qed.

Lemma sum_nonneg (xs : list R) : Forall (λ x, 0 <= x) xs → 0 <= sum xs.
Proof.
  induction 1 as [|x xs Hx _ IH]; [unfold sum; simpl; lra|].
  unfold sum. simpl. rewrite foldl_Rplus. lra.
Qed.

Lemma sum_zero (xs : list R) : Forall (λ x, x = 0) xs → sum xs = 0.
Proof.
  induction 1 as [|x xs -> _ IH]; [done|].
  unfold sum. simpl. rewrite foldl_Rplus, IH. lra.
Qed.

Lemma slice_last_length {A} (n : nat) (xs : list A) :
  length (slice_last n xs) = (n `min` length xs)%nat.
Proof. unfold slice_last. rewrite length_drop. lia. Qed.

Lemma slice_last_Forall {A} (P : A → Prop) (n : nat) (xs : list A) :
  Forall P xs → Forall P (slice_last n xs).
Proof. apply Forall_drop. Qed.

(** X26. [calculateUncertainty] of an engine with a non-negative number of
    games lies between 0.1 and 1.  For recent games whose
    [engine1_rating_after] is [NULL], as it is in every row that the program
    writes, the volatility is 0 and the uncertainty is [max(0.1, 1 -
    games_played / 100)], whatever the games. *)
Theorem calculateUncertainty_bounds (engine : EngineRow)
    (recentGames : list RecentGame) :
  (0 ≤ e_games_played engine)%Z →
  0.1 <= calculateUncertainty engine recentGames <= 1
  ∧ (Forall (λ game, rg_engine1_rating_after game = None) recentGames →
     calculateUncertainty engine recentGames
     = Rmax 0.1 (1 - IZR (e_games_played engine) / 100)).
Proof.
  intros Hplayed%IZR_le. unfold calculateUncertainty.
  pose proof (Rmax_bounds 0.1 (1 - IZR (e_games_played engine) / 100) 1)
    as Hbase.
  destruct Hbase as [Hlo Hhi]; [lra..|].
  set (baseUncertainty := Rmax 0.1 _) in *.
  case_bool_decide as Hlen; [|done].
  set (ratingChanges := _ <$> slice_last 10 recentGames).
  assert (0 < INR (length ratingChanges)) as Hpos.
  { apply lt_0_INR. unfold ratingChanges.
    rewrite length_fmap, slice_last_length. lia. }
  assert (0 <= sum ratingChanges) as Hsum.
  { apply sum_nonneg. unfold ratingChanges. apply Forall_fmap, Forall_forall.
    intros game _. simpl. apply IZR_le. lia. }
  assert (0 <= sum ratingChanges / INR (length ratingChanges)) as Havg.
  { apply Rmult_le_pos; [done|]. left. by apply Rinv_0_lt_compat. }
  split.
  - destruct (Rmin_bounds 0.5 (sum ratingChanges / INR (length ratingChanges)
                               / 100) 0) as [Hv0 Hv1]; [lra..|].
    set (volatility := Rmin 0.5 _) in *.
    unfold Rmin. destruct (Rle_dec _ _); lra.
  - intros Hnull.
    assert (sum ratingChanges = 0) as ->.
    { apply sum_zero. unfold ratingChanges. apply Forall_fmap.
      apply slice_last_Forall. eapply Forall_impl; [exact Hnull|].
      intros game Hafter. simpl. rewrite Hafter. simpl.
      by rewrite Z.sub_diag. }
    replace (0 / INR (length ratingChanges) / 100) with 0 by (field; lra).
    unfold Rmin. repeat destruct (Rle_dec _ _); lra.
Qed.

Lemma calculateUncertainty_bounds_witness :
  let engine := mkEngineRow 1 "Engine1" None 1500 20 8 7 5 in
  let recentGames :=
    [mkRecentGame 1 2 1500 None; mkRecentGame 2 1 1480 None;
     mkRecentGame 1 3 1516 None] in
  0.1 <= calculateUncertainty engine recentGames <= 1
  ∧ (Forall (λ game, rg_engine1_rating_after game = None) recentGames →
     calculateUncertainty engine recentGames
     = Rmax 0.1 (1 - IZR (e_games_played engine) / 100)).
Proof.
  intros engine recentGames.
  apply (calculateUncertainty_bounds engine recentGames). simpl. lia.
Defined.

Lemma calculateUncertainty_lower (engine : EngineRow)
    (recentGames : list RecentGame) :
  0.1 <= calculateUncertainty engine recentGames.
Proof.
  unfold calculateUncertainty.
  assert (0.1 <= Rmax 0.1 (1 - IZR (e_games_played engine) / 100)) as Hlo
    by apply Rmax_l.
  set (baseUncertainty := Rmax 0.1 _) in *.
  case_bool_decide as Hlen; [|done].
  set (ratingChanges := _ <$> slice_last 10 recentGames).
  assert (0 < INR (length ratingChanges)) as Hpos.
  { apply lt_0_INR. unfold ratingChanges.
    rewrite length_fmap, slice_last_length. lia. }
  assert (0 <= sum ratingChanges) as Hsum.
  { apply sum_nonneg. unfold ratingChanges. apply Forall_fmap, Forall_forall.
    intros game _. simpl. apply IZR_le. lia. }
  assert (0 <= sum ratingChanges / INR (length ratingChanges)) as Havg.
  { apply Rmult_le_pos; [done|]. left. by apply Rinv_0_lt_compat. }
  destruct (Rmin_bounds 0.5 (sum ratingChanges / INR (length ratingChanges)
                             / 100) 0) as [Hv0 Hv1]; [lra..|].
  set (volatility := Rmin 0.5 _) in *.
  unfold Rmin. destruct (Rle_dec _ _); lra.
Qed.

(** With ratings that are not negative, every pairing has a positive
    weight. *)
Lemma pairing_weight_positive (recentGames : list RecentGame)
    (pairCounts : gmap string Z) (engine1 engine2 : EngineRow) :
  (0 ≤ e_rating engine1)%Z → (0 ≤ e_rating engine2)%Z →
  0.05 < pairing_weight recentGames pairCounts engine1 engine2.
Proof.
  intros H1 H2. unfold pairing_weight.
  pose proof (calculateUncertainty_lower engine1
                (filter (λ g, rg_engine1_id g = e_id engine1
                              ∨ rg_engine2_id g = e_id engine1) recentGames))
    as Hu1.
  pose proof (calculateUncertainty_lower engine2
                (filter (λ g, rg_engine1_id g = e_id engine2
                              ∨ rg_engine2_id g = e_id engine2) recentGames))
    as Hu2.
  set (uncertainty1 := calculateUncertainty engine1 _) in *.
  set (uncertainty2 := calculateUncertainty engine2 _) in *.
  assert (0 < 1 / (1 + IZR (Z.abs (e_rating engine1 - e_rating engine2)) / 200))
    as Hproximity.
  { assert (0 <= IZR (Z.abs (e_rating engine1 - e_rating engine2)))
      by (apply IZR_le; lia).
    apply Rdiv_lt_0_compat; lra. }
  set (ratingProximity := 1 / _) in *.
  assert (0 <= Rmin 1 (IZR (e_rating engine1 + e_rating engine2) / 2 / 2000))
    as Hpreference.
  { assert (0 <= IZR (e_rating engine1 + e_rating engine2))
      by (apply IZR_le; lia).
    unfold Rmin. destruct (Rle_dec _ _); lra. }
  set (ratingPreference := Rmin 1 _) in *.
  assert (0.1 <= Rmax 0.1 (1 - IZR (default 0%Z (pairCounts
            !! pair_key (e_id engine1) (e_id engine2))) / 50)) as Hfrequency
    by apply Rmax_l.
  set (gameFrequency := Rmax 0.1 _) in *.
  lra.
Qed.

Lemma all_pairings_elem (weight_of : EngineRow → EngineRow → R)
    (engines : list EngineRow) (p : Pairing) :
  p ∈ all_pairings weight_of engines →
  ∃ i j engine1 engine2,
    engines !! i = Some engine1 ∧ engines !! j = Some engine2 ∧ (i < j)%nat
    ∧ p = mkPairing (e_id engine1, e_id engine2) (weight_of engine1 engine2).
Proof.
  induction engines as [|engine1 engines IH]; simpl;
    [by intros ?%elem_of_nil|].
  intros [(engine2 & -> & Hin)%list_elem_of_fmap|Hin]%elem_of_app.
  - apply list_elem_of_lookup in Hin as [j Hj].
    exists 0%nat, (S j), engine1, engine2. repeat split; [done|lia].
  - destruct (IH Hin) as (i & j & e1 & e2 & Hi & Hj & Hij & ->).
    exists (S i), (S j), e1, e2. repeat split; [done..|lia].
Qed.

Lemma all_pairings_nonempty (weight_of : EngineRow → EngineRow → R)
    (engines : list EngineRow) :
  (2 ≤ length engines)%nat → all_pairings weight_of engines ≠ [].
Proof. destruct engines as [|? [|? ?]]; simpl; [lia..|done]. Qed.

Lemma insert_by_weight_Permutation (p : Pairing) (sorted : list Pairing) :
  insert_by_weight p sorted ≡ₚ p :: sorted.
Proof.
  induction sorted as [|q sorted IH]; simpl; [done|].
  destruct (Rlt_dec _ _); [|done]. rewrite IH. apply Permutation_swap.
Qed.

Lemma sort_by_weight_Permutation (pairings : list Pairing) :
  sort_by_weight pairings ≡ₚ pairings.
Proof.
  unfold sort_by_weight. induction pairings as [|p pairings IH]; simpl; [done|].
  by rewrite insert_by_weight_Permutation, IH.
Qed.

(** [a] may come before [b] in the sorted array. *)
#[local] Abbreviation heavier :=
  (λ a b : Pairing, weight b <= weight a).

Lemma insert_by_weight_sorted (p : Pairing) (sorted : list Pairing) :
  StronglySorted heavier sorted →
  StronglySorted heavier (insert_by_weight p sorted).
Proof.
  induction 1 as [|q sorted Hsorted IH Hq]; simpl.
  - repeat constructor.
  - destruct (Rlt_dec _ _) as [Hlt|Hge].
    + constructor; [done|].
      rewrite insert_by_weight_Permutation. constructor; [simpl; lra|done].
    + constructor; [by constructor|].
      constructor; [simpl; lra|].
      eapply Forall_impl; [exact Hq|]. simpl. intros x. lra.
Qed.

Lemma sort_by_weight_sorted (pairings : list Pairing) :
  StronglySorted heavier (sort_by_weight pairings).
Proof.
  unfold sort_by_weight. induction pairings as [|p pairings IH]; simpl.
  - constructor.
  - by apply insert_by_weight_sorted.
Qed.

Lemma pick_elem (random : R) (candidates : list Pairing) (p : Pairing) :
  pick random candidates = Some p → p ∈ candidates.
Proof.
  revert random. induction candidates as [|q candidates IH]; intros random;
    simpl; [done|].
  destruct (Rle_dec _ _); [intros [= ->]; apply list_elem_of_here|].
  intros ?%IH. by apply list_elem_of_further.
Qed.

(** The pairing that [selectOptimalPairing] returns is one of the sorted
    array; it is one of the first five unless the total weight of these is
    zero. *)
Lemma selectOptimalPairing_pairing (getRecentGames : M Db (list RecentGame))
    (random : R) (engines : list EngineRow)
    (tournamentConfig : option TournamentConfig) (db : Db)
    (recentGames : list RecentGame) (pairCounts : gmap string Z) :
  getRecentGames db = (inr recentGames, db) →
  getPairGameCounts db = (inr pairCounts, db) →
  (2 ≤ length engines)%nat →
  0 <= random < 1 →
  let pairings :=
    sort_by_weight
      (all_pairings (pairing_weight recentGames pairCounts) engines) in
  ∃ p,
    selectOptimalPairing getRecentGames random engines tournamentConfig db
    = (inr (Some ((pairing_engines p).1, (pairing_engines p).2,
                  choose_matchSet tournamentConfig)), db)
    ∧ p ∈ pairings
    ∧ (foldl (λ sum p, sum + weight p) 0 (take 5 pairings) ≠ 0 →
       p ∈ take 5 pairings).
Proof.
  intros Hrecent Hcounts Hlen Hrandom pairings.
  assert (pairings ≠ []) as Hne.
  { intros Hnil.
    apply (all_pairings_nonempty (pairing_weight recentGames pairCounts))
      in Hlen.
    apply Hlen, Permutation_nil_r. rewrite <- Hnil. unfold pairings.
    by rewrite sort_by_weight_Permutation. }
  assert (0 < length pairings)%nat as Hpos
    by (destruct pairings; [done|simpl; lia]).
  unfold selectOptimalPairing.
  rewrite bool_decide_eq_false_2 by lia.
  rewrite bind_unfold, Hrecent, bind_unfold, Hcounts.
  fold pairings. rewrite bool_decide_eq_false_2 by lia.
  assert (take (5 `min` length pairings) pairings = take 5 pairings) as ->.
  { destruct (Nat.min_spec 5 (length pairings)) as [[_ ->]|[Hle ->]]; [done|].
    by rewrite !take_ge by lia. }
  set (topCandidates := take 5 pairings).
  set (totalWeight := foldl _ 0 topCandidates).
  assert (topCandidates ≠ []) as Htop
    by (unfold topCandidates; by destruct pairings).
  destruct (bool_decide (totalWeight = 0) || bool_decide (length _ = 0%nat))
    eqn:Hfallback.
  - assert (totalWeight = 0) as Hzero.
    { apply orb_true_iff in Hfallback
        as [?%bool_decide_eq_true|Hnil%bool_decide_eq_true]; [done|].
      by apply nil_length_inv in Hnil. }
    assert (0 <= random * INR (length pairings) < INR (length pairings))
      as Hindex.
    { assert (0 < INR (length pairings)) by (by apply lt_0_INR). nra. }
    assert (0 ≤ Zfloor (random * INR (length pairings))
            < Z.of_nat (length pairings))%Z as Hfloor.
    { pose proof (Zfloor_bound (random * INR (length pairings))) as Hbound.
      rewrite INR_IZR_INZ in *. split.
      - apply Z.lt_succ_r, lt_IZR. rewrite succ_IZR. lra.
      - apply lt_IZR. lra. }
    rewrite bool_decide_eq_true_2 by lia.
    destruct (lookup_lt_is_Some_2 pairings
                (Z.to_nat (Zfloor (random * INR (length pairings)))))
      as [p Hp]; [lia|].
    exists p. rewrite Hp. split; [done|].
    split; [by eapply list_elem_of_lookup_2|done].
  - apply orb_false_iff in Hfallback as [Hweight%bool_decide_eq_false _].
    destruct (pick (random * totalWeight) topCandidates) as [p|] eqn:Hpick.
    + exists p. split; [done|]. apply pick_elem in Hpick.
      split; [|done]. unfold topCandidates in Hpick.
      by apply elem_of_take in Hpick as (i & Hp%list_elem_of_lookup_2 & _).
    + destruct topCandidates as [|p top] eqn:Heq; [done|].
      unfold topCandidates in Heq.
      exists p. split; [reflexivity|].
      assert (p ∈ take 5 pairings) as Hin
        by (rewrite Heq; apply list_elem_of_here).
      split; [|intros _; apply list_elem_of_here].
      by apply elem_of_take in Hin as (i & Hp%list_elem_of_lookup_2 & _).
Qed.

(** X27. For at least two engines, [selectOptimalPairing] never returns
    [null]: whatever the ratings, the recent games and the random number, it
    returns two engines of two different places of the array, the earlier
    one as engine 1, with the match set of the configuration.  For engines
    listed by ascending id, as [runTournament] passes them, engine 1 has the
    smaller id. *)
Theorem selectOptimalPairing_selects (getRecentGames : M Db (list RecentGame))
    (random : R) (engines : list EngineRow)
    (tournamentConfig : option TournamentConfig) (db : Db)
    (recentGames : list RecentGame) :
  getRecentGames db = (inr recentGames, db) →
  (2 ≤ length engines)%nat →
  0 <= random < 1 →
  ∃ i j engine1 engine2,
    selectOptimalPairing getRecentGames random engines tournamentConfig db
    = (inr (Some (e_id engine1, e_id engine2,
                  choose_matchSet tournamentConfig)), db)
    ∧ engines !! i = Some engine1
    ∧ engines !! j = Some engine2
    ∧ (i < j)%nat
    ∧ (StronglySorted Z.lt (e_id <$> engines) →
       (e_id engine1 < e_id engine2)%Z).
Proof.
  intros Hrecent Hlen Hrandom.
  assert (∃ pairCounts, getPairGameCounts db = (inr pairCounts, db))
    as [pairCounts Hcounts] by (eexists; reflexivity).
  destruct (selectOptimalPairing_pairing getRecentGames random engines
              tournamentConfig db recentGames pairCounts Hrecent Hcounts Hlen
              Hrandom) as (p & -> & Hp & _).
  rewrite sort_by_weight_Permutation in Hp.
  apply all_pairings_elem in Hp as (i & j & engine1 & engine2 & Hi & Hj & Hij
                                    & ->).
  exists i, j, engine1, engine2. split; [done|]. split; [done|].
  split; [done|]. split; [done|]. intros Hsorted.
  rewrite <- (take_drop j (e_id <$> engines)) in Hsorted.
  apply (StronglySorted_app_1_elem_of _ _ _ (e_id engine1) (e_id engine2))
    in Hsorted; [done| |].
  - apply elem_of_take. exists i. by rewrite list_lookup_fmap, Hi.
  - apply list_elem_of_lookup. exists 0%nat.
    rewrite lookup_drop, Nat.add_0_r, list_lookup_fmap, Hj. done.
Qed.

Lemma selectOptimalPairing_selects_witness :
  let getRecentGames : M Db (list RecentGame) :=
    λ db, (inr [mkRecentGame 1 2 1500 None], db) in
  let engines :=
    [mkEngineRow 1 "Engine1" None 1500 0 0 0 0;
     mkEngineRow 2 "Engine2" None 1600 0 0 0 0;
     mkEngineRow 3 "Engine3" None 1400 0 0 0 0] in
  ∃ i j engine1 engine2,
    selectOptimalPairing getRecentGames (1 / 2) engines None empty_db
    = (inr (Some (e_id engine1, e_id engine2, choose_matchSet None)), empty_db)
    ∧ engines !! i = Some engine1
    ∧ engines !! j = Some engine2
    ∧ (i < j)%nat
    ∧ (StronglySorted Z.lt (e_id <$> engines) →
       (e_id engine1 < e_id engine2)%Z).
Proof.
  intros getRecentGames engines.
  apply (selectOptimalPairing_selects getRecentGames (1 / 2) engines None
           empty_db [mkRecentGame 1 2 1500 None]).
  - reflexivity.
  - simpl. lia.
  - lra.
Defined.

#[local] Instance Rlt_decision (x y : R) : Decision (x < y) := Rlt_dec x y.

Lemma total_weight_positive (candidates : list Pairing) (a : R) :
  Forall (λ p, 0 < weight p) candidates → 0 <= a → candidates ≠ [] →
  0 < foldl (λ sum p, sum + weight p) a candidates.
Proof.
  intros Hall. revert a. induction Hall as [|p candidates Hp Hall IH];
    intros a Ha Hne; [done|]. simpl.
  destruct candidates as [|q candidates]; [simpl; lra|].
  apply IH; [lra|done].
Qed.

(** X28. With ratings that are not negative, every pairing has a weight
    above 0.05, so the total weight of the candidates is not zero and the
    random-index fallback is not taken: the pairing that
    [selectOptimalPairing] returns is one of the five heaviest, that is,
    fewer than five pairings weigh more than it. *)
Theorem selectOptimalPairing_top_five (getRecentGames : M Db (list RecentGame))
    (random : R) (engines : list EngineRow)
    (tournamentConfig : option TournamentConfig) (db : Db)
    (recentGames : list RecentGame) (pairCounts : gmap string Z) :
  getRecentGames db = (inr recentGames, db) →
  getPairGameCounts db = (inr pairCounts, db) →
  (2 ≤ length engines)%nat →
  0 <= random < 1 →
  Forall (λ e, (0 ≤ e_rating e)%Z) engines →
  ∃ p,
    selectOptimalPairing getRecentGames random engines tournamentConfig db
    = (inr (Some ((pairing_engines p).1, (pairing_engines p).2,
                  choose_matchSet tournamentConfig)), db)
    ∧ p ∈ all_pairings (pairing_weight recentGames pairCounts) engines
    ∧ 0.05 < weight p
    ∧ (length (filter (λ q, (weight p < weight q)%R)
                 (all_pairings (pairing_weight recentGames pairCounts) engines))
       < 5)%nat.
Proof.
  intros Hrecent Hcounts Hlen Hrandom Hratings.
  destruct (selectOptimalPairing_pairing getRecentGames random engines
              tournamentConfig db recentGames pairCounts Hrecent Hcounts Hlen
              Hrandom) as (p & -> & Hp & Htop).
  set (pairings := sort_by_weight _) in *.
  assert (Forall (λ p, 0.05 < weight p) pairings) as Hweights.
  { apply Forall_forall. intros q Hq. unfold pairings in Hq.
    rewrite sort_by_weight_Permutation in Hq.
    apply all_pairings_elem in Hq as (i & j & engine1 & engine2 & Hi & Hj & _
                                      & ->).
    rewrite Forall_forall in Hratings. simpl.
    apply pairing_weight_positive; apply Hratings;
      by eapply list_elem_of_lookup_2. }
  assert (p ∈ take 5 pairings) as Hin.
  { apply Htop. apply Rgt_not_eq, Rlt_gt, total_weight_positive; [|lra|].
    - apply Forall_take. eapply Forall_impl; [exact Hweights|]. simpl.
      intros q. lra.
    - destruct pairings; [by apply elem_of_nil in Hp|done]. }
  exists p. split; [done|].
  split; [by rewrite <- (sort_by_weight_Permutation (all_pairings _ _))|].
  split; [by rewrite Forall_forall in Hweights; apply Hweights|].
  rewrite <- (sort_by_weight_Permutation (all_pairings _ _)). fold pairings.
  apply elem_of_take in Hin as (i & Hi & Hlt).
  pose proof (sort_by_weight_sorted
                (all_pairings (pairing_weight recentGames pairCounts) engines))
    as Hsorted.
  fold pairings in Hsorted.
  rewrite <- (take_drop_middle pairings i p Hi) in Hsorted |- *.
  apply StronglySorted_app_1_r in Hsorted.
  apply StronglySorted_inv in Hsorted as [_ Hrest].
  rewrite filter_app, filter_cons, decide_False by lra.
  rewrite length_app.
  assert (filter (λ q, weight p < weight q) (drop (S i) pairings) = []) as ->.
  { apply elem_of_nil_inv. intros q [Hq Hin]%list_elem_of_filter.
    rewrite Forall_forall in Hrest. specialize (Hrest q Hin). simpl in Hrest.
    lra. }
  pose proof (length_filter (λ q, weight p < weight q) (take i pairings)) as Hle.
  rewrite length_take in Hle. simpl. lia.
Qed.

Lemma selectOptimalPairing_top_five_witness :
  let getRecentGames : M Db (list RecentGame) :=
    λ db, (inr [mkRecentGame 1 2 1500 None], db) in
  let engines :=
    [mkEngineRow 1 "Engine1" None 1500 0 0 0 0;
     mkEngineRow 2 "Engine2" None 1600 0 0 0 0;
     mkEngineRow 3 "Engine3" None 1400 0 0 0 0] in
  let recentGames := [mkRecentGame 1 2 1500 None] in
  ∃ p,
    selectOptimalPairing getRecentGames (1 / 2) engines None empty_db
    = (inr (Some ((pairing_engines p).1, (pairing_engines p).2,
                  choose_matchSet None)), empty_db)
    ∧ p ∈ all_pairings (pairing_weight recentGames ∅) engines
    ∧ 0.05 < weight p
    ∧ (length (filter (λ q, (weight p < weight q)%R)
                 (all_pairings (pairing_weight recentGames ∅) engines))
       < 5)%nat.
Proof.
  intros getRecentGames engines recentGames.
  apply (selectOptimalPairing_top_five getRecentGames (1 / 2) engines None
           empty_db recentGames ∅).
  - reflexivity.
  - reflexivity.
  - simpl. lia.
  - lra.
  - repeat constructor; simpl; lia.
Defined.

End scheduler.

(** ** Recording a match set *)

Section record_match_set.

Import Database Index System.

Local Open Scope Z_scope.

(** The columns of [engines] other than [rating]. *)
#[local] Abbreviation other_columns :=
  (λ e : EngineRow,
     (e_id e, e_name e, e_description e, e_games_played e, e_wins e,
      e_losses e, e_draws e)).





(** The row of an engine with a new rating. *)
#[local] Abbreviation with_rating newRating :=
  (λ e : EngineRow,
     mkEngineRow (e_id e) (e_name e) (e_description e) newRating
       (e_games_played e) (e_wins e) (e_losses e) (e_draws e)).



End record_match_set.

(** ** Rounding to double precision *)

Section double_rounding.

Local Open Scope R_scope.















End double_rounding.

(** ** Match-set rating changes in double precision *)




Section double_changes.

Local Open Scope R_scope.














End double_changes.

(** ** The Elo update: formula and symmetry *)

Section elo_double.

Local Open Scope R_scope.







End elo_double.
